(** * Singly linked lists of the repository, over an explicit heap

    The repository holds three implementations of the same singly linked
    list with a cached [tail] and [length]:

    - [LinkedListCpp]: the C++ class whose member functions are defined out
      of line against the header (Node::Node, LinkedList::append, ...);
    - [LinkedListInline]: the C++ class of the single-file demonstration,
      with the member functions written inside the class body;
    - [LinkedListJs]: the JavaScript class.

    Nodes live in a heap of cells addressed by natural numbers; a pointer is
    an optional address ([None] is nullptr / null).  [new Node(v)] takes the
    next unused address (addresses are never handed out twice), [delete p]
    removes the cell, and reading or writing through nullptr or through a
    deleted cell is a [Fault].  The C++ [int] fields and parameters are
    modelled as [Z]; a list of 2^31 - 1 nodes, where [length++] would
    overflow, is outside the model. *)

From stdpp Require Import gmap strings list fin_maps pretty.
From Stdlib Require Import ZArith Lia Sorted.

(** ** Memory, object state and the outcome monad *)

Definition loc := nat.
Definition ptr := option loc.

Record Node := mkNode { value : Z; next : ptr }.

Record state := mkState {
  cells : gmap nat Node;      (* the allocated nodes *)
  brk : nat;                  (* next address [new] hands out *)
  head : ptr;                 (* LinkedList::head *)
  tail : ptr;                 (* LinkedList::tail *)
  length : Z;                 (* LinkedList::length *)
  console : list string       (* lines written to std::cout / console *)
}.

Inductive outcome (A : Type) : Type :=
| Ok (a : A)
| Fault        (* dereference of nullptr or of a deleted node *)
| OutOfFuel.   (* a while loop did not stop within its step budget *)
Arguments Ok {A} a.
Arguments Fault {A}.
Arguments OutOfFuel {A}.

Definition M (A : Type) : Type := state -> outcome (A * state).

Definition ret {A} (a : A) : M A := fun s => Ok (a, s).

Definition bind {A B} (m : M A) (f : A -> M B) : M B :=
  fun s => match m s with
           | Ok (a, s') => f a s'
           | Fault => Fault
           | OutOfFuel => OutOfFuel
           end.

#[global] Instance M_ret : MRet M := @ret.
#[global] Instance M_bind : MBind M := fun A B f m => bind m f.

Definition get_head : M ptr := fun s => Ok (head s, s).
Definition get_tail : M ptr := fun s => Ok (tail s, s).
Definition get_length : M Z := fun s => Ok (length s, s).

Definition set_head (p : ptr) : M unit := fun s =>
  Ok (tt, mkState (cells s) (brk s) p (tail s) (length s) (console s)).
Definition set_tail (p : ptr) : M unit := fun s =>
  Ok (tt, mkState (cells s) (brk s) (head s) p (length s) (console s)).
Definition set_length (n : Z) : M unit := fun s =>
  Ok (tt, mkState (cells s) (brk s) (head s) (tail s) n (console s)).

(** the state with one more line on the console *)
Definition with_line (msg : string) (s : state) : state :=
  mkState (cells s) (brk s) (head s) (tail s) (length s) (console s ++ [msg]).

(** [std::cout << msg << std::endl], [console.warn(msg)] *)
Definition print (msg : string) : M unit := fun s => Ok (tt, with_line msg s).

(** [new Node(v)]: value [v], next nullptr *)
Definition new_node (v : Z) : M ptr := fun s =>
  Ok (Some (brk s),
      mkState (<[brk s := mkNode v None]> (cells s)) (S (brk s))
              (head s) (tail s) (length s) (console s)).

(** reading [p->value], [p->next] *)
Definition load (p : ptr) : M Node := fun s =>
  match p with
  | None => Fault
  | Some l => match cells s !! l with
              | Some n => Ok (n, s)
              | None => Fault
              end
  end.
Definition get_next (p : ptr) : M ptr := n ← load p; mret (next n).
Definition get_value (p : ptr) : M Z := n ← load p; mret (value n).

Definition with_cells (m : gmap nat Node) (s : state) : state :=
  mkState m (brk s) (head s) (tail s) (length s) (console s).

(** [p->next = q] *)
Definition set_next (p q : ptr) : M unit := fun s =>
  match p with
  | None => Fault
  | Some l => match cells s !! l with
              | Some n => Ok (tt, with_cells (<[l := mkNode (value n) q]> (cells s)) s)
              | None => Fault
              end
  end.

(** [p->value = v] *)
Definition set_value (p : ptr) (v : Z) : M unit := fun s =>
  match p with
  | None => Fault
  | Some l => match cells s !! l with
              | Some n => Ok (tt, with_cells (<[l := mkNode v (next n)]> (cells s)) s)
              | None => Fault
              end
  end.

(** [delete p]; deleting nullptr does nothing *)
Definition delete_node (p : ptr) : M unit := fun s =>
  match p with
  | None => Ok (tt, s)
  | Some l => match cells s !! l with
              | Some _ => Ok (tt, with_cells (delete l (cells s)) s)
              | None => Fault
              end
  end.

Definition out_of_fuel {A} : M A := fun _ => OutOfFuel.

Definition is_null (p : ptr) : bool :=
  match p with None => true | Some _ => false end.

Definition ptr_eqb (p q : ptr) : bool := bool_decide (p = q).

(** [length++], [length--] *)
Definition incr_length : M unit := n ← get_length; set_length (n + 1).
Definition decr_length : M unit := n ← get_length; set_length (n - 1).

(** Step budget of a while loop over the chain: one more than the number of
    allocated nodes, enough for every loop over a chain that ends in
    nullptr.  A walk along [next] that has not reached its target after that
    many steps has visited some node twice. *)
Definition budget : M nat := fun s => Ok (S (size (cells s)), s).

(** [for (int i = 0; i < n; i++) prev = prev->next;] *)
Fixpoint advance (n : nat) (prev : ptr) : M ptr :=
  match n with
  | O => mret prev
  | S n' => nx ← get_next prev; advance n' nx
  end.

(** [while (temp->next != target) temp = temp->next;] *)
Fixpoint find_before (fuel : nat) (target : ptr) (temp : ptr) : M ptr :=
  match fuel with
  | O => out_of_fuel
  | S f =>
      nx ← get_next temp;
      if ptr_eqb nx target then mret temp else find_before f target nx
  end.

(** the decimal text of an int, as [std::cout <<] and a template literal
    write it *)
Definition show_int (v : Z) : string := pretty v.

(** [while (temp) { line += temp->value + " --> "; temp = temp->next; }]:
    the text written for the nodes from [temp] on, after [line].  The C++
    classes send the pieces to std::cout one by one and end the line after
    the loop; the console of the model holds whole lines, so the pieces are
    collected and the line is written when it is complete. *)
Fixpoint print_loop (fuel : nat) (temp : ptr) (line : string) : M string :=
  match temp with
  | None => mret line
  | Some _ =>
      match fuel with
      | O => out_of_fuel
      | S f =>
          v ← get_value temp;
          nx ← get_next temp;
          print_loop f nx (line +:+ show_int v +:+ " --> ")
      end
  end.

(** [while (current != nullptr) { nextNode = current->next; delete current;
                                  current = nextNode; }] *)
Fixpoint destroy_loop (fuel : nat) (current : ptr) : M unit :=
  match current with
  | None => mret tt
  | Some _ =>
      match fuel with
      | O => out_of_fuel
      | S f =>
          nextNode ← get_next current;
          delete_node current;;
          destroy_loop f nextNode
      end
  end.

(** A client of the C++ classes: one call of a public member function, and
    the run of a sequence of calls on the object. *)
Inductive op : Type :=
| Append (v : Z)
| Prepend (v : Z)
| Insert (v : Z) (index : Z)
| DeleteFirst
| DeleteLast
| DeletePosition (index : Z)
| Reverse.

Fixpoint run_with (exec : op -> M unit) (ops : list op) (s : state)
  : outcome state :=
  match ops with
  | [] => Ok s
  | o :: ops' =>
      match exec o s with
      | Ok (_, s') => run_with exec ops' s'
      | Fault => Fault
      | OutOfFuel => OutOfFuel
      end
  end.

(** ** The header-based C++ class *)

Module LinkedListCpp.

(** LinkedList::LinkedList(int value), on a memory with no nodes *)
Definition create (v : Z) : state :=
  mkState {[ 0%nat := mkNode v None ]} 1 (Some 0%nat) (Some 0%nat) 1 [].

Definition append (v : Z) : M unit :=
  newNode ← new_node v;
  h ← get_head;
  (if is_null h then
     set_head newNode;; set_tail newNode
   else
     t ← get_tail;
     set_next t newNode;;
     set_tail newNode);;
  incr_length.

Definition prepend (v : Z) : M unit :=
  newNode ← new_node v;
  h ← get_head;
  (if is_null h then
     set_head newNode;; set_tail newNode
   else
     set_next newNode h;;
     set_head newNode);;
  incr_length.

Definition deleteLast : M unit :=
  h ← get_head;
  if is_null h then mret tt
  else
    t ← get_tail;
    (if ptr_eqb h t then
       delete_node h;;
       set_head None;; set_tail None
     else
       fuel ← budget;
       temp ← find_before fuel t h;
       delete_node t;;
       set_tail temp;;
       set_next temp None);;
    decr_length.

Definition deleteFirst : M unit :=
  h ← get_head;
  if is_null h then mret tt
  else
    nx ← get_next h;
    set_head nx;;
    delete_node h;;
    h' ← get_head;
    (if is_null h' then set_tail None else mret tt);;
    decr_length.

Definition getLength : M Z := get_length.

Definition insert (v : Z) (index : Z) : M bool :=
  len ← get_length;
  if (index <? 0)%Z || (index >? len)%Z then mret false
  else if (index =? 0)%Z then prepend v;; mret true
  else if (index =? len)%Z then append v;; mret true
  else
    newNode ← new_node v;
    h ← get_head;
    prev ← advance (Z.to_nat (index - 1)) h;
    nx ← get_next prev;
    set_next newNode nx;;
    set_next prev newNode;;
    incr_length;;
    mret true.

Definition deletePosition (index : Z) : M bool :=
  len ← get_length;
  if (index <? 0)%Z || (index >=? len)%Z then mret false
  else if (index =? 0)%Z then deleteFirst;; mret true
  else
    h ← get_head;
    prev ← advance (Z.to_nat (index - 1)) h;
    toDelete ← get_next prev;
    nx ← get_next toDelete;
    set_next prev nx;;
    t ← get_tail;
    (if ptr_eqb toDelete t then set_tail prev else mret tt);;
    delete_node toDelete;;
    decr_length;;
    mret true.

(** [while (curr) { nextNode = curr->next; curr->next = prev;
                    prev = curr; curr = nextNode; }], returning [prev] *)
Fixpoint reverse_loop (fuel : nat) (prev curr : ptr) : M ptr :=
  match curr with
  | None => mret prev
  | Some _ =>
      match fuel with
      | O => out_of_fuel
      | S f =>
          nextNode ← get_next curr;
          set_next curr prev;;
          reverse_loop f curr nextNode
      end
  end.

Definition reverseLinkedList : M unit :=
  h ← get_head;
  set_tail h;;
  fuel ← budget;
  prev ← reverse_loop fuel None h;
  set_head prev.

(** LinkedList::~LinkedList() *)
Definition destructor : M unit :=
  current ← get_head;
  fuel ← budget;
  destroy_loop fuel current;;
  set_head None;;
  set_tail None;;
  set_length 0.

(** LinkedList::printList() const *)
Definition printList : M unit :=
  temp ← get_head;
  fuel ← budget;
  line ← print_loop fuel temp "";
  print (line +:+ "nullptr").

Definition exec (o : op) : M unit :=
  match o with
  | Append v => append v
  | Prepend v => prepend v
  | Insert v index => insert v index;; mret tt
  | DeleteFirst => deleteFirst
  | DeleteLast => deleteLast
  | DeletePosition index => deletePosition index;; mret tt
  | Reverse => reverseLinkedList
  end.

Definition run : list op -> state -> outcome state := run_with exec.

End LinkedListCpp.

(** ** The single-file C++ class *)

Module LinkedListInline.

Definition create (v : Z) : state :=
  mkState {[ 0%nat := mkNode v None ]} 1 (Some 0%nat) (Some 0%nat) 1 [].

Definition append (v : Z) : M unit :=
  newNode ← new_node v;
  h ← get_head;
  (if is_null h then
     set_head newNode;; set_tail newNode
   else
     t ← get_tail;
     set_next t newNode;;
     set_tail newNode);;
  incr_length.

Definition prepend (v : Z) : M unit :=
  newNode ← new_node v;
  h ← get_head;
  (if is_null h then
     set_head newNode;; set_tail newNode
   else
     set_next newNode h;;
     set_head newNode);;
  incr_length.

Definition deleteLast : M unit :=
  h ← get_head;
  if is_null h then print "Error: Cannot delete from an empty list."
  else
    t ← get_tail;
    (if ptr_eqb h t then
       delete_node h;;
       set_head None;; set_tail None
     else
       fuel ← budget;
       temp ← find_before fuel t h;
       delete_node t;;
       set_tail temp;;
       set_next temp None);;
    decr_length.

Definition deleteFirst : M unit :=
  h ← get_head;
  if is_null h then print "Error: Cannot delete from an empty list."
  else
    nx ← get_next h;
    (if is_null nx then
       set_head None;; set_tail None
     else
       set_head nx);;
    delete_node h;;
    decr_length.

Definition getLength : M Z := get_length.

Definition insert (v : Z) (index : Z) : M bool :=
  h ← get_head;
  if is_null h then prepend v;; mret true
  else
    len ← get_length;
    if (index =? len - 1)%Z then append v;; mret true
    else
      newNode ← new_node v;
      prev ← advance (Z.to_nat index) h;
      nx ← get_next prev;
      set_next newNode nx;;
      set_next prev newNode;;
      incr_length;;
      mret true.

Definition deletePosition (index : Z) : M bool :=
  h ← get_head;
  if is_null h then print "Empty List";; mret false
  else
    len ← get_length;
    if (index <? 0)%Z || (index >=? len)%Z then
      print "Index out of bounds";; mret false
    else
      toDelete ←
        (if (index =? 0)%Z then
           nx ← get_next h;
           set_head nx;;
           mret h
         else
           prev ← advance (Z.to_nat (index - 1)) h;
           toDelete ← get_next prev;
           nx ← get_next toDelete;
           set_next prev nx;;
           mret toDelete);
      delete_node toDelete;;
      decr_length;;
      mret true.

(** the body of [for (int i = 0; i < length; i++)], run [n] times on the
    loop variables [before] and [temp] *)
Fixpoint reverse_loop (n : nat) (before temp : ptr) : M unit :=
  match n with
  | O => mret tt
  | S n' =>
      after ← get_next temp;
      set_next temp before;;
      reverse_loop n' temp after
  end.

Definition reverseLinkedList : M unit :=
  temp ← get_head;
  t ← get_tail;
  set_head t;;
  set_tail temp;;
  _ ← get_next temp;            (* Node* after = temp->next; *)
  len ← get_length;
  reverse_loop (Z.to_nat len) None temp.

(** LinkedList::~LinkedList() *)
Definition destructor : M unit :=
  current ← get_head;
  fuel ← budget;
  destroy_loop fuel current;;
  set_head None;;
  set_tail None;;
  set_length 0.

(** LinkedList::printList() const *)
Definition printList : M unit :=
  temp ← get_head;
  fuel ← budget;
  line ← print_loop fuel temp "";
  print (line +:+ "nullptr").

Definition exec (o : op) : M unit :=
  match o with
  | Append v => append v
  | Prepend v => prepend v
  | Insert v index => insert v index;; mret tt
  | DeleteFirst => deleteFirst
  | DeleteLast => deleteLast
  | DeletePosition index => deletePosition index;; mret tt
  | Reverse => reverseLinkedList
  end.

Definition run : list op -> state -> outcome state := run_with exec.

End LinkedListInline.

(** ** The JavaScript class *)

Module LinkedListJs.

Definition create (v : Z) : state :=
  mkState {[ 0%nat := mkNode v None ]} 1 (Some 0%nat) (Some 0%nat) 1 [].

Definition append (v : Z) : M unit :=
  newNode ← new_node v;
  h ← get_head;
  (if is_null h then
     set_head newNode;; set_tail newNode
   else
     t ← get_tail;
     set_next t newNode;;
     set_tail newNode);;
  incr_length.

Definition prepend (v : Z) : M unit :=
  newNode ← new_node v;
  h ← get_head;
  (if is_null h then
     set_head newNode;; set_tail newNode
   else
     set_next newNode h;;
     set_head newNode);;
  incr_length.

(** the returned JavaScript value: [Some v] is the number [v], [None] is
    [null] *)
Definition deleteLast : M (option Z) :=
  h ← get_head;
  if is_null h then
    print "Warning: Cannot delete from an empty list.";; mret None
  else
    t ← get_tail;
    deletedValue ←
      (if ptr_eqb h t then
         v ← get_value h;
         set_head None;; set_tail None;;
         mret v
       else
         fuel ← budget;
         temp ← find_before fuel t h;
         v ← get_value t;
         set_tail temp;;
         set_next temp None;;
         mret v);
    decr_length;;
    mret (Some deletedValue).

Definition deleteFirst : M (option Z) :=
  h ← get_head;
  if is_null h then
    print "Warning: Cannot delete from an empty list.";; mret None
  else
    deletedValue ← get_value h;
    nx ← get_next h;
    (if is_null nx then
       set_head None;; set_tail None
     else
       set_head nx);;
    decr_length;;
    mret (Some deletedValue).

Definition getLength : M Z := get_length.

Definition isEmpty : M bool := len ← get_length; mret (len =? 0)%Z.

(** printList(head = this.head): the parameter is not used *)
Definition printList : M unit :=
  temp ← get_head;
  fuel ← budget;
  listString ← print_loop fuel temp "";
  print (listString +:+ "null").

(** [while (temp) { st.push(temp.value); temp = temp.next; }], returning
    the array [st] *)
Fixpoint push_loop (fuel : nat) (temp : ptr) (st : list Z) : M (list Z) :=
  match temp with
  | None => mret st
  | Some _ =>
      match fuel with
      | O => out_of_fuel
      | S f =>
          v ← get_value temp;
          nx ← get_next temp;
          push_loop f nx (st ++ [v])
      end
  end.

(** [st.pop()]: the last element and the array without it.  On an empty
    array JavaScript yields [undefined], which the integer values of the
    model cannot hold: the model stops with [Fault] there. *)
Definition pop (st : list Z) : M (Z * list Z) :=
  match last st with
  | Some v => mret (v, removelast st)
  | None => fun _ => Fault
  end.

(** [while (temp) { temp.value = st.pop(); temp = temp.next; }] *)
Fixpoint pop_loop (fuel : nat) (temp : ptr) (st : list Z) : M unit :=
  match temp with
  | None => mret tt
  | Some _ =>
      match fuel with
      | O => out_of_fuel
      | S f =>
          '(v, st') ← pop st;
          set_value temp v;;
          nx ← get_next temp;
          pop_loop f nx st'
      end
  end.

Definition reverseLinkedListBruteForce : M unit :=
  h ← get_head;
  fuel ← budget;
  st ← push_loop fuel h [];
  h' ← get_head;
  pop_loop fuel h' st.

(** [while (temp !== null) { front = temp.next; temp.next = prev;
                             prev = temp; temp = front; }], returning
    [prev] *)
Fixpoint reverse_loop (fuel : nat) (prev temp : ptr) : M ptr :=
  match temp with
  | None => mret prev
  | Some _ =>
      match fuel with
      | O => out_of_fuel
      | S f =>
          front ← get_next temp;
          set_next temp prev;;
          reverse_loop f temp front
      end
  end.

(** returns the new head *)
Definition reverseLinkedListOptimal : M ptr :=
  temp ← get_head;
  fuel ← budget;
  prev ← reverse_loop fuel None temp;
  h ← get_head;
  set_tail h;;
  set_head prev;;
  get_head.

End LinkedListJs.

(** ** A client of the header-based class: print_reverse *)

Module PrintReverse.

(** [while (temp) { st.push(temp->value); temp = temp->next; }] on a
    std::stack, top of the stack first *)
Fixpoint push_loop (fuel : nat) (temp : ptr) (st : list Z) : M (list Z) :=
  match temp with
  | None => mret st
  | Some _ =>
      match fuel with
      | O => out_of_fuel
      | S f =>
          v ← get_value temp;
          nx ← get_next temp;
          push_loop f nx (v :: st)
      end
  end.

(** [st.top()]; on an empty std::stack it is undefined behaviour *)
Definition top (st : list Z) : M Z :=
  match st with
  | v :: _ => mret v
  | [] => fun _ => Fault
  end.

(** [while (temp) { newhead->value = st.top(); temp = temp->next; }] *)
Fixpoint top_loop (fuel : nat) (temp newhead : ptr) (st : list Z) : M unit :=
  match temp with
  | None => mret tt
  | Some _ =>
      match fuel with
      | O => out_of_fuel
      | S f =>
          v ← top st;
          set_value newhead v;;
          nx ← get_next temp;
          top_loop f nx newhead st
      end
  end.

(** Node* print_reverse(Node* head) *)
Definition print_reverse (head : ptr) : M ptr :=
  fuel ← budget;
  st ← push_loop fuel head [];
  top_loop fuel head head st;;
  mret head.

End PrintReverse.

(** ** The array problems of the single-file demonstration

    Each problem is a void function that runs its loop on a vector written
    as a literal and prints the result.  The loops are modelled on an
    arbitrary vector of ints, the printing is left out, and the value the
    function goes on to print is the result.  [vec[i]] outside the vector is
    undefined behaviour: the model gives [None] there. *)

Module ArrayProblems.

(** [vec[i]] *)
Definition at_index (vec : list Z) (i : Z) : option Z :=
  if (i <? 0)%Z then None else vec !! Z.to_nat i.

(** [vec[i] = x]; [None] when [i] is outside the vector *)
Definition set_index (vec : list Z) (i : Z) (x : Z) : option (list Z) :=
  if (i <? 0)%Z || (Z.of_nat (List.length vec) <=? i)%Z then None
  else Some (<[Z.to_nat i := x]> vec).

(** Problem 1, the vector part: [None] stands for "Vector is empty.",
    otherwise the pair (max_val_vec, min_val_vec) after
    [for (int x : vec) { if (x > max) max = x; if (x < min) min = x; }] *)
Definition findMinMax (vec : list Z) : option (Z * Z) :=
  match vec with
  | [] => None
  | v0 :: _ =>
      Some (foldl (fun '(max_val, min_val) x =>
                     (if (x >? max_val)%Z then x else max_val,
                      if (x <? min_val)%Z then x else min_val))
                  (v0, v0) vec)
  end.

(** Problem 2, the manual reversal:
    [while (left < right) { std::swap(vec[left], vec[right]); left++;
                            right--; }] *)
Fixpoint swap_loop (fuel : nat) (vec : list Z) (left right : Z)
  : option (list Z) :=
  if (left <? right)%Z then
    match fuel with
    | O => None
    | S f =>
        match at_index vec left, at_index vec right with
        | Some a, Some b =>
            match set_index vec left b with
            | Some vec1 =>
                match set_index vec1 right a with
                | Some vec2 => swap_loop f vec2 (left + 1) (right - 1)
                | None => None
                end
            | None => None
            end
        | _, _ => None
        end
    end
  else Some vec.

(** [left = 0; right = vec.size() - 1;] and the loop; the loop runs at most
    size / 2 times *)
Definition reverseManual (vec : list Z) : option (list Z) :=
  swap_loop (List.length vec) vec 0 (Z.of_nat (List.length vec) - 1).

(** Problem 3, the manual check:
    [for (size_t i = 0; i < vec.size() - 1; ++i)
       if (vec[i] > vec[i + 1]) { is_sorted = false; break; }],
    with [count] iterations left *)
Fixpoint sorted_loop (count : nat) (vec : list Z) (i : nat) : option bool :=
  match count with
  | O => Some true
  | S c =>
      match vec !! i, vec !! S i with
      | Some a, Some b =>
          if (a >? b)%Z then Some false else sorted_loop c vec (S i)
      | _, _ => None
      end
  end.

(** [bool is_sorted = true; if (vec.size() > 1) for ...] *)
Definition checkIfSorted (vec : list Z) : option bool :=
  if (1 <? List.length vec)%nat
  then sorted_loop (List.length vec - 1) vec 0
  else Some true.

(** Problem 6, the temporary vector:
    [for (int i = 0; i < n; ++i) rotated_vec[(i + k) % n] = vec[i];],
    with [count] iterations left; [%] of C++ truncates like [Z.rem]; the
    sum [i + k] is below 2 n and is taken without wrap-around *)
Fixpoint rotate_loop (count : nat) (vec rotated_vec : list Z) (i k n : Z)
  : option (list Z) :=
  match count with
  | O => Some rotated_vec
  | S c =>
      match at_index vec i with
      | Some x =>
          match set_index rotated_vec (Z.rem (i + k) n) x with
          | Some r => rotate_loop c vec r (i + 1) k n
          | None => None
          end
      | None => None
      end
  end.

(** [if (n == 0 || k == 0) return;] (no rotation needed), [k = k % n;],
    [std::vector<int> rotated_vec(n);] and the loop *)
Definition rotateTemp (vec : list Z) (k : Z) : option (list Z) :=
  let n := Z.of_nat (List.length vec) in
  if (n =? 0)%Z || (k =? 0)%Z then Some vec
  else
    let k := Z.rem k n in
    rotate_loop (List.length vec) vec (replicate (List.length vec) 0%Z) 0 k n.

(** [std::reverse(vec.begin() + first, vec.begin() + last)] *)
Definition reverse_range (vec : list Z) (first last : nat) : list Z :=
  take first vec ++ reverse (take (last - first) (drop first vec))
    ++ drop last vec.

(** Problem 6, in place, reached only past the [return] of
    [if (n == 0 || k == 0)]: [k = k % n;], reverse the whole vector, then
    the first k elements, then the remaining n - k; [vec.begin() + k] with
    a negative k is outside the vector *)
Definition rotateReverse (vec : list Z) (k : Z) : option (list Z) :=
  let n := Z.of_nat (List.length vec) in
  if (n =? 0)%Z || (k =? 0)%Z then Some vec
  else
    let k := Z.rem k n in
    if (k <? 0)%Z then None
    else
      let vec1 := reverse_range vec 0 (Z.to_nat n) in
      let vec2 := reverse_range vec1 0 (Z.to_nat k) in
      Some (reverse_range vec2 (Z.to_nat k) (Z.to_nat n)).

(** Problem 7, the loop on the vector:
    [for (size_t i = 1; i < vec.size(); ++i)
       if (vec[i] != vec[i - 1]) { vec[write_idx] = vec[i]; write_idx++; }],
    with [count] iterations left; the result is the vector and write_idx *)
Fixpoint dedup_loop (count : nat) (vec : list Z) (i write_idx : nat)
  : option (list Z * nat) :=
  match count with
  | O => Some (vec, write_idx)
  | S c =>
      match vec !! i, vec !! (i - 1)%nat with
      | Some a, Some b =>
          if bool_decide (a <> b) then
            match set_index vec (Z.of_nat write_idx) a with
            | Some vec1 => dedup_loop c vec1 (S i) (S write_idx)
            | None => None
            end
          else dedup_loop c vec (S i) write_idx
      | _, _ => None
      end
  end.

(** [if (vec.empty()) return;] (new length 0), [write_idx = 1], the loop and
    [vec.resize(write_idx)]: the vector left and the new length printed *)
Definition removeDuplicatesSorted (vec : list Z) : option (list Z * nat) :=
  match vec with
  | [] => Some ([], 0%nat)
  | _ =>
      match dedup_loop (List.length vec - 1) vec 1 1 with
      | Some (vec1, write_idx) => Some (take write_idx vec1, write_idx)
      | None => None
      end
  end.

End ArrayProblems.

(** ** Observations on a state *)

(** The nodes met from [p] by following [next] until nullptr, with their
    values; [None] when the walk leaves the heap or does not end within
    [fuel] nodes. *)
Fixpoint walk (fuel : nat) (m : gmap nat Node) (p : ptr)
  : option (list (loc * Z)) :=
  match p with
  | None => Some []
  | Some l =>
      match fuel with
      | O => None
      | S f =>
          match m !! l with
          | None => None
          | Some n =>
              match walk f m (next n) with
              | Some ns => Some ((l, value n) :: ns)
              | None => None
              end
          end
      end
  end.

Definition nodes (s : state) : option (list (loc * Z)) :=
  walk (size (cells s)) (cells s) (head s).

(** the sequence of values from [head] *)
Definition values (s : state) : option (list Z) :=
  match nodes s with Some ns => Some (ns.*2) | None => None end.

(** the number of nodes reachable from [head] *)
Definition reachable_count (s : state) : option Z :=
  match nodes s with
  | Some ns => Some (Z.of_nat (List.length ns))
  | None => None
  end.

(** the last node reachable from [head] (nullptr for the empty chain) *)
Definition last_reachable (s : state) : option ptr :=
  match nodes s with Some ns => Some (last (ns.*1)) | None => None end.

Definition heap_below (s : state) : bool :=
  forallb (fun ln => fst ln <? brk s) (map_to_list (cells s)).

(** A well-formed list: the chain from [head] ends in nullptr, [tail] is its
    last node, [length] its number of nodes, and every allocated address is
    below [brk]. *)
Definition well_formed (s : state) : bool :=
  match nodes s with
  | Some ns =>
      bool_decide (tail s = last (ns.*1))
      && (length s =? Z.of_nat (List.length ns))%Z
      && heap_below s
  | None => false
  end.

(** the state after the JavaScript class has warned about an empty list *)
Definition warned (s : state) : state :=
  with_line "Warning: Cannot delete from an empty list." s.

(** the state after the single-file C++ class has printed its error line *)
Definition complained (s : state) : state :=
  with_line "Error: Cannot delete from an empty list." s.

(** head, tail, length and the nodes are the same *)
Definition same_list (s s' : state) : Prop :=
  cells s = cells s' /\ head s = head s' /\ tail s = tail s' /\
  length s = length s'.

(** A call of a member function returning void reports the empty list to
    its caller: it returns, the list is as before, and something was said.
    A void function has no result value, so the only thing its caller can
    observe beside the list itself is a line on the console. *)
Definition reports_empty (f : M unit) (s : state) : Prop :=
  exists s', f s = Ok (tt, s') /\ same_list s s' /\ console s' <> console s.

(** the list left by [LinkedList l(10); l.deleteFirst();] *)
Definition emptied : state := mkState ∅ 1 None None 0 [].

(** the list 20 --> 10 --> nullptr *)
Definition two_nodes : state :=
  mkState {[ 0%nat := mkNode 20 (Some 1%nat); 1%nat := mkNode 10 None ]}
          2 (Some 0%nat) (Some 1%nat) 2 [].


(** the elements of [rest] that differ from the element just before them,
    [prev] being the element before the first: what is left of a vector when
    every run of equal neighbours is cut down to its first element *)
Fixpoint collapse_runs (prev : Z) (rest : list Z) : list Z :=
  match rest with
  | [] => []
  | x :: r =>
      if bool_decide (x <> prev) then x :: collapse_runs x r
      else collapse_runs x r
  end.

(** the allocated nodes that the cached length does not account for *)
Definition surplus (s : state) : Z :=
  (Z.of_nat (size (cells s)) - length s)%Z.

(** ** Chains of nodes in the heap *)

(** [lseg m p ns q]: following [next] from [p] in [m] passes through exactly
    the nodes [ns] (address and value, in order) and arrives at [q]. *)
Fixpoint lseg (m : gmap nat Node) (p : ptr) (ns : list (loc * Z)) (q : ptr)
  : Prop :=
  match ns with
  | [] => p = q
  | (l, v) :: ns' =>
      p = Some l /\ exists nx, m !! l = Some (mkNode v nx) /\ lseg m nx ns' q
  end.

(** the Prop-level reading of [well_formed], with the chain made explicit *)
Definition repr (s : state) (ns : list (loc * Z)) : Prop :=
  lseg (cells s) (head s) ns None /\
  tail s = last (ns.*1) /\
  length s = Z.of_nat (List.length ns) /\
  (forall l n, cells s !! l = Some n -> (l < brk s)%nat).

(** evaluation of the monadic primitives *)
Ltac psimpl := cbn [cells brk head tail length console value next].

Ltac unfold_m :=
  cbv beta iota delta
    [mbind mret M_bind M_ret bind ret get_head get_tail get_length set_head
     set_tail set_length incr_length decr_length new_node get_next get_value
     load set_next delete_node budget with_cells with_line print is_null
     ptr_eqb out_of_fuel warned complained];
  cbn [cells brk head tail length console value next].

Section Chains.

Implicit Types (m : gmap nat Node) (p q r : ptr) (ns : list (loc * Z)).

Lemma lseg_app m p q ns1 ns2 :
  lseg m p (ns1 ++ ns2) q <-> exists r, lseg m p ns1 r /\ lseg m r ns2 q.
Proof.
  revert p. induction ns1 as [|[l v] ns1 IH]; intros p; simpl.
  - split.
    + intros H. exists p. auto.
    + intros (r & -> & H). exact H.
  - split.
    + intros (-> & nx & Hl & H). apply IH in H as (r & H1 & H2).
      exists r. eauto.
    + intros (r & (-> & nx & Hl & H1) & H2). split; [done|].
      exists nx. split; [done|]. apply IH. eauto.
Qed.

Lemma lseg_snoc m p q ns l v :
  lseg m p (ns ++ [(l, v)]) q <->
  lseg m p ns (Some l) /\ m !! l = Some (mkNode v q).
Proof.
  rewrite lseg_app. simpl. split.
  - intros (r & H1 & -> & nx & Hl & ->). eauto.
  - intros (H1 & Hl). eauto 10.
Qed.

Lemma lseg_functional m p ns1 ns2 :
  lseg m p ns1 None -> lseg m p ns2 None -> ns1 = ns2.
Proof.
  revert p ns2. induction ns1 as [|[l v] ns1 IH]; intros p [|[l' v'] ns2]; simpl.
  - done.
  - intros -> (? & _). done.
  - intros (-> & _) ?. done.
  - intros (-> & nx & Hl & H1) (Heq & nx' & Hl' & H2).
    injection Heq as <-. rewrite Hl in Hl'. injection Hl' as <- <-.
    f_equal. eauto.
Qed.

Lemma lseg_lookup m p q ns l :
  lseg m p ns q -> l ∈ ns.*1 -> is_Some (m !! l).
Proof.
  revert p. induction ns as [|[l' v] ns IH]; intros p; simpl.
  - intros _ H. inversion H.
  - intros (-> & nx & Hl & H) Hin. apply elem_of_cons in Hin as [->|Hin]; eauto.
Qed.

Lemma lseg_NoDup m p ns : lseg m p ns None -> NoDup (ns.*1).
Proof.
  revert p. induction ns as [|[l v] ns IH]; intros p H; simpl.
  - constructor.
  - pose proof H as H0. destruct H as (-> & nx & Hl & H).
    apply NoDup_cons. split; [|eauto].
    intros Hin. apply list_elem_of_fmap in Hin as ([l' v'] & Heq & Hin).
    simpl in Heq. subst l'.
    apply list_elem_of_split in Hin as (a & b & ->).
    apply lseg_app in H as (r & _ & H2).
    assert (Hr : r = Some l) by (simpl in H2; tauto). subst r.
    pose proof (lseg_functional _ _ _ _ H0 H2) as Heq.
    apply (f_equal List.length) in Heq. simpl in Heq.
    rewrite length_app in Heq. simpl in Heq. lia.
Qed.

Lemma lseg_length m p ns : lseg m p ns None -> (List.length ns <= size m)%nat.
Proof.
  intros H. rewrite <- length_map_to_list.
  rewrite <- (length_fmap fst ns), <- (length_fmap fst (map_to_list m)).
  apply submseteq_length, NoDup_submseteq; [by eapply lseg_NoDup|].
  intros l Hin. destruct (lseg_lookup _ _ _ _ _ H Hin) as [n Hn].
  apply list_elem_of_fmap. exists (l, n). split; [done|].
  by apply elem_of_map_to_list.
Qed.

Lemma walk_lseg fuel m p ns : walk fuel m p = Some ns -> lseg m p ns None.
Proof.
  revert p ns. induction fuel as [|f IH]; intros [l|] ns; simpl; try congruence.
  - intros [= <-]. done.
  - destruct (m !! l) as [[v nx]|] eqn:Hl; [|done]. simpl.
    destruct (walk f m nx) as [ns'|] eqn:Hw; [|done].
    intros [= <-]. simpl. split; [done|]. eauto.
  - intros [= <-]. done.
Qed.

Lemma lseg_walk fuel m p ns :
  lseg m p ns None -> (List.length ns <= fuel)%nat -> walk fuel m p = Some ns.
Proof.
  revert p fuel. induction ns as [|[l v] ns IH]; intros p fuel; simpl.
  - intros -> _. by destruct fuel.
  - intros (-> & nx & Hl & H) Hlen. destruct fuel as [|f]; [lia|].
    simpl. rewrite Hl. simpl. rewrite (IH nx f H); [done|lia].
Qed.

Lemma lseg_insert_ne m p q ns l n :
  l ∉ ns.*1 -> lseg m p ns q -> lseg (<[l := n]> m) p ns q.
Proof.
  revert p. induction ns as [|[l' v] ns IH]; intros p; simpl; [done|].
  intros Hnin (-> & nx & Hl & H). apply not_elem_of_cons in Hnin as [Hne Hnin].
  split; [done|]. exists nx. rewrite lookup_insert_ne by done. eauto.
Qed.

Lemma lseg_delete_ne m p q ns l :
  l ∉ ns.*1 -> lseg m p ns q -> lseg (delete l m) p ns q.
Proof.
  revert p. induction ns as [|[l' v] ns IH]; intros p; simpl; [done|].
  intros Hnin (-> & nx & Hl & H). apply not_elem_of_cons in Hnin as [Hne Hnin].
  split; [done|]. exists nx. rewrite lookup_delete_ne by done. eauto.
Qed.

Lemma lseg_nil m p q : lseg m p [] q <-> p = q.
Proof. done. Qed.

Lemma lseg_cons m p q l v ns :
  lseg m p ((l, v) :: ns) q <->
  p = Some l /\ exists nx, m !! l = Some (mkNode v nx) /\ lseg m nx ns q.
Proof. done. Qed.

End Chains.

Arguments lseg : simpl never.

(** ** Well-formed states and their chains *)

Section WellFormed.

Implicit Types (s : state) (ns : list (loc * Z)).

Lemma heap_below_spec s :
  heap_below s = true <->
  (forall l n, cells s !! l = Some n -> (l < brk s)%nat).
Proof.
  unfold heap_below. rewrite forallb_forall. split.
  - intros H l n Hl. apply Nat.ltb_lt.
    apply (H (l, n)), list_elem_of_In, elem_of_map_to_list, Hl.
  - intros H [l n] Hin. apply Nat.ltb_lt. apply (H l n).
    by apply elem_of_map_to_list, list_elem_of_In.
Qed.

Lemma repr_nodes s ns : repr s ns -> nodes s = Some ns.
Proof.
  intros (Hseg & _). unfold nodes.
  apply lseg_walk; [done|]. by eapply lseg_length.
Qed.

Lemma repr_well_formed s ns : repr s ns -> well_formed s = true.
Proof.
  intros H. unfold well_formed. rewrite (repr_nodes _ _ H).
  destruct H as (_ & Ht & Hlen & Hb).
  rewrite bool_decide_eq_true_2 by done.
  rewrite (proj2 (Z.eqb_eq _ _) Hlen).
  by rewrite (proj2 (heap_below_spec s) Hb).
Qed.

Lemma well_formed_repr s : well_formed s = true -> exists ns, repr s ns.
Proof.
  unfold well_formed. destruct (nodes s) as [ns|] eqn:Hn; [|done].
  intros H. apply andb_prop in H as [H Hb]. apply andb_prop in H as [Ht Hlen].
  exists ns. repeat split.
  - by eapply walk_lseg.
  - by apply bool_decide_eq_true_1 in Ht.
  - by apply Z.eqb_eq.
  - by apply heap_below_spec.
Qed.

Lemma repr_values s ns : repr s ns -> values s = Some (ns.*2).
Proof. intros H. unfold values. by rewrite (repr_nodes _ _ H). Qed.

Lemma repr_reachable_count s ns :
  repr s ns -> reachable_count s = Some (length s).
Proof.
  intros H. unfold reachable_count. rewrite (repr_nodes _ _ H).
  destruct H as (_ & _ & -> & _). done.
Qed.

Lemma repr_NoDup s ns : repr s ns -> NoDup (ns.*1).
Proof. intros (H & _). by eapply lseg_NoDup. Qed.

Lemma repr_fresh s ns : repr s ns -> cells s !! brk s = None.
Proof.
  intros (_ & _ & _ & Hb). destruct (cells s !! brk s) as [n|] eqn:E; [|done].
  apply Hb in E. lia.
Qed.

Lemma repr_fresh_notin s ns : repr s ns -> brk s ∉ ns.*1.
Proof.
  intros H Hin. destruct H as (Hseg & _ & _ & Hb).
  destruct (lseg_lookup _ _ _ _ _ Hseg Hin) as [n Hn]. apply Hb in Hn. lia.
Qed.

Lemma repr_empty_iff s ns : repr s ns -> (head s = None <-> ns = []).
Proof.
  intros (Hseg & _). destruct ns as [|[l v] ns]; simpl in Hseg.
  - done.
  - destruct Hseg as (-> & _). split; done.
Qed.

End WellFormed.

(** ** Loops along a chain *)

Section Loops.

Implicit Types (s : state) (ns : list (loc * Z)) (p q : ptr).

Lemma advance_lseg s p q ns :
  lseg (cells s) p ns q -> advance (List.length ns) p s = Ok (q, s).
Proof.
  revert p. induction ns as [|[l v] ns IH]; intros p.
  - intros ->%lseg_nil. done.
  - intros (-> & nx & Hl & H)%lseg_cons. simpl. unfold_m. rewrite Hl.
    by apply IH.
Qed.

Lemma lseg_first m p ns x :
  lseg m p ns (Some x) ->
  p = Some x /\ ns = [] \/ exists l, p = Some l /\ l ∈ ns.*1.
Proof.
  destruct ns as [|[l v] ns].
  - intros ->%lseg_nil. by left.
  - intros (-> & _)%lseg_cons. right. exists l. split; [done|].
    apply elem_of_cons. by left.
Qed.

Lemma find_before_lseg s p ns x vx t fuel :
  lseg (cells s) p ns (Some x) ->
  cells s !! x = Some (mkNode vx (Some t)) ->
  t ∉ ns.*1 -> t <> x ->
  (List.length ns < fuel)%nat ->
  find_before fuel (Some t) p s = Ok (Some x, s).
Proof.
  revert p fuel. induction ns as [|[l v] ns IH]; intros p fuel.
  - intros ->%lseg_nil Hx _ _ Hf. destruct fuel as [|f]; [simpl in Hf; lia|].
    simpl. unfold_m. rewrite Hx. psimpl. by rewrite bool_decide_eq_true_2.
  - intros (-> & nx & Hl & H)%lseg_cons Hx Hnin Hne Hf.
    apply not_elem_of_cons in Hnin as [Hne' Hnin].
    destruct fuel as [|f]; [simpl in Hf; lia|]. simpl. unfold_m. rewrite Hl.
    psimpl. rewrite bool_decide_eq_false_2.
    + apply IH; auto. simpl in Hf. lia.
    + intros ->. apply lseg_first in H as [[Heq _]|(l' & Heq & Hin)].
      * congruence.
      * injection Heq as <-. done.
Qed.

End Loops.

(** ** The header-based class on well-formed states *)

Section CppSpecs.

Import LinkedListCpp.
Implicit Types (s : state) (ns : list (loc * Z)) (p q : ptr).

Lemma below_insert (m : gmap nat Node) (b b' k : nat) (x : Node) :
  (forall l n, m !! l = Some n -> (l < b)%nat) ->
  (k < b')%nat -> (b <= b')%nat ->
  forall l n, <[k := x]> m !! l = Some n -> (l < b')%nat.
Proof.
  intros Hb Hk Hle l n Hl. destruct (decide (k = l)) as [<-|Hne]; [done|].
  rewrite lookup_insert_ne in Hl by done. apply Hb in Hl. lia.
Qed.

Lemma below_delete (m : gmap nat Node) (b k : nat) :
  (forall l n, m !! l = Some n -> (l < b)%nat) ->
  forall l n, delete k m !! l = Some n -> (l < b)%nat.
Proof.
  intros Hb l n Hl. destruct (decide (k = l)) as [<-|Hne].
  - by rewrite lookup_delete_eq in Hl.
  - rewrite lookup_delete_ne in Hl by done. eauto.
Qed.

Lemma lseg_snoc_head m p x ns :
  lseg m p (ns ++ [x]) None -> exists l0, p = Some l0.
Proof.
  destruct ns as [|[l0 v0] ns]; destruct x as [lx vx]; simpl.
  - intros (-> & _)%lseg_cons. eauto.
  - intros (-> & _)%lseg_cons. eauto.
Qed.

Lemma lseg_single m l v q :
  m !! l = Some (mkNode v q) -> lseg m (Some l) [(l, v)] q.
Proof. intros H. apply lseg_cons. split; [done|]. exists q. by split. Qed.

Lemma fst_snoc ns (l : loc) (v : Z) : (ns ++ [(l, v)]).*1 = ns.*1 ++ [l].
Proof. by rewrite fmap_app. Qed.

Lemma last_fst_snoc ns (l : loc) (v : Z) :
  last ((ns ++ [(l, v)]).*1) = Some l.
Proof. by rewrite fst_snoc, last_snoc. Qed.

Lemma cpp_append_repr s ns v :
  repr s ns ->
  exists s', append v s = Ok (tt, s') /\ repr s' (ns ++ [(brk s, v)]) /\
             console s' = console s.
Proof.
  intros H. pose proof (repr_fresh_notin _ _ H) as Hfresh.
  pose proof (repr_NoDup _ _ H) as Hnd.
  destruct H as (Hseg & Ht & Hlen & Hb).
  destruct s as [m b h t len con]. psimpl. cbn [cells brk head tail length] in *.
  destruct ns as [|[lt vt] ns _] using rev_ind.
  - apply lseg_nil in Hseg. subst h. unfold append. unfold_m.
    eexists. split; [reflexivity|]. split; [|done].
    unfold repr. psimpl. split_and!.
    + apply lseg_single, lookup_insert_eq.
    + done.
    + simpl in *. lia.
    + eapply below_insert; eauto.
  - destruct (lseg_snoc_head _ _ _ _ Hseg) as [lh ->].
    apply lseg_snoc in Hseg as [Hseg Hlt].
    rewrite last_fst_snoc in Ht. subst t.
    rewrite fst_snoc in Hnd, Hfresh.
    apply NoDup_app in Hnd as (_ & Hnd & _).
    apply not_elem_of_app in Hfresh as [Hf1 Hf2].
    apply not_elem_of_cons in Hf2 as [Hf2 _].
    unfold append. unfold_m.
    rewrite lookup_insert_ne by done. rewrite Hlt. psimpl.
    eexists. split; [reflexivity|]. split; [|done].
    unfold repr. psimpl. split_and!.
    + apply lseg_snoc. split.
      * apply lseg_snoc. split.
        -- apply lseg_insert_ne; [|by apply lseg_insert_ne].
           intros Hin. by apply (Hnd lt Hin), list_elem_of_singleton.
        -- apply lookup_insert_eq.
      * rewrite lookup_insert_ne by done. apply lookup_insert_eq.
    + by rewrite last_fst_snoc.
    + rewrite !length_app in *. simpl in *. lia.
    + eapply below_insert; [|apply Hb in Hlt; lia|done].
      eapply below_insert; eauto.
Qed.

Lemma cpp_prepend_repr s ns v :
  repr s ns ->
  exists s', prepend v s = Ok (tt, s') /\ repr s' ((brk s, v) :: ns) /\
             console s' = console s.
Proof.
  intros H. pose proof (repr_fresh_notin _ _ H) as Hfresh.
  destruct H as (Hseg & Ht & Hlen & Hb).
  destruct s as [m b h t len con]. cbn [cells brk head tail length] in *.
  destruct ns as [|[l0 v0] ns].
  - apply lseg_nil in Hseg. subst h. unfold prepend. unfold_m.
    eexists. split; [reflexivity|]. split; [|done].
    unfold repr. psimpl. split_and!.
    + apply lseg_single, lookup_insert_eq.
    + done.
    + simpl in *. lia.
    + eapply below_insert; eauto.
  - pose proof Hseg as (-> & _)%lseg_cons.
    unfold prepend. unfold_m. rewrite lookup_insert_eq. psimpl.
    eexists. split; [reflexivity|]. split; [|done].
    unfold repr. psimpl. split_and!.
    + apply lseg_cons. split; [done|].
      exists (Some l0). split; [apply lookup_insert_eq|].
      apply lseg_insert_ne; [done|]. by apply lseg_insert_ne.
    + rewrite Ht. done.
    + simpl in *. lia.
    + apply (below_insert _ (S b)); [|lia|lia].
      apply (below_insert _ b); [done|lia|lia].
Qed.

Lemma cpp_deleteFirst_empty s : head s = None -> deleteFirst s = Ok (tt, s).
Proof. intros H. unfold deleteFirst. unfold_m. by rewrite H. Qed.

Lemma cpp_deleteFirst_repr s x ns :
  repr s (x :: ns) ->
  exists s', deleteFirst s = Ok (tt, s') /\ repr s' ns /\
             console s' = console s /\ brk s' = brk s.
Proof.
  intros H. pose proof (repr_NoDup _ _ H) as Hnd.
  destruct H as (Hseg & Ht & Hlen & Hb). destruct x as [l0 v0].
  destruct s as [m b h t len con]. cbn [cells brk head tail length] in *.
  apply lseg_cons in Hseg as (-> & nx & Hl & Hseg).
  rewrite fmap_cons in Hnd. apply NoDup_cons in Hnd as [Hnin Hnd].
  unfold deleteFirst. unfold_m. rewrite Hl. psimpl. rewrite Hl.
  assert (Hseg' : lseg (delete l0 m) nx ns None) by by apply lseg_delete_ne.
  destruct ns as [|[l1 v1] ns].
  - apply lseg_nil in Hseg. subst nx.
    eexists. split; [reflexivity|]. split_and!; try done.
    unfold repr. psimpl. split_and!; try done.
    + simpl in *. lia.
    + by apply below_delete.
  - pose proof Hseg as (-> & _)%lseg_cons.
    eexists. split; [reflexivity|]. split_and!; try done.
    unfold repr. psimpl. split_and!; try done.
    + simpl in *. lia.
    + by apply below_delete.
Qed.

Lemma cpp_deleteLast_empty s : head s = None -> deleteLast s = Ok (tt, s).
Proof. intros H. unfold deleteLast. unfold_m. by rewrite H. Qed.

Lemma cpp_deleteLast_repr s x ns :
  repr s (ns ++ [x]) ->
  exists s', deleteLast s = Ok (tt, s') /\ repr s' ns /\
             console s' = console s /\ brk s' = brk s.
Proof.
  intros H. pose proof (repr_NoDup _ _ H) as Hnd.
  destruct H as (Hseg & Ht & Hlen & Hb). destruct x as [lt vt].
  destruct s as [m b h t len con]. cbn [cells brk head tail length] in *.
  pose proof (lseg_length _ _ _ Hseg) as Hsize.
  rewrite last_fst_snoc in Ht. subst t.
  apply lseg_snoc in Hseg as [Hseg Hlt].
  rewrite fst_snoc in Hnd. apply NoDup_app in Hnd as (Hnd & Hdisj & _).
  assert (Hnin : lt ∉ ns.*1).
  { intros Hin. by apply (Hdisj lt Hin), list_elem_of_singleton. }
  rewrite length_app in Hlen, Hsize. simpl in Hlen, Hsize.
  destruct ns as [|[lp vp] ns _] using rev_ind.
  - apply lseg_nil in Hseg. subst h.
    unfold deleteLast. unfold_m.
    rewrite bool_decide_eq_true_2 by done. psimpl. rewrite Hlt. psimpl.
    eexists. split; [reflexivity|]. split_and!; try done.
    unfold repr. psimpl. split_and!; try done.
    + simpl in *. lia.
    + by apply below_delete.
  - destruct (lseg_snoc_head _ _ _ _
                (proj2 (lseg_snoc _ _ _ _ _ _) (conj Hseg Hlt))) as [lh ->].
    apply lseg_snoc in Hseg as [Hseg Hlp].
    rewrite fst_snoc in Hnd, Hnin.
    apply NoDup_app in Hnd as (_ & Hdisj' & _).
    apply not_elem_of_app in Hnin as [Hnin Hne].
    apply not_elem_of_cons in Hne as [Hne _].
    rewrite length_app in Hlen, Hsize. simpl in Hlen, Hsize.
    unfold deleteLast. unfold_m.
    rewrite bool_decide_eq_false_2.
    2:{ intros [= ->]. apply lseg_first in Hseg as [[[= ->] _]|(l' & [= <-] & Hin)];
        done. }
    psimpl.
    rewrite (find_before_lseg
               (mkState m b (Some lh) (Some lt) len con)
               (Some lh) ns lp vp lt (S (size m))); try done.
    2:{ lia. }
    psimpl. rewrite Hlt. psimpl. rewrite lookup_delete_ne by done. rewrite Hlp. psimpl.
    eexists. split; [reflexivity|]. split_and!; try done.
    unfold repr. psimpl. split_and!.
    + apply lseg_snoc. split; [|apply lookup_insert_eq].
      apply lseg_insert_ne.
      * intros Hin. by apply (Hdisj' lp Hin), list_elem_of_singleton.
      * by apply lseg_delete_ne.
    + by rewrite last_fst_snoc.
    + rewrite length_app. simpl. lia.
    + apply (below_insert _ b); [by apply below_delete| |lia].
      by apply Hb in Hlp.
Qed.

Lemma cpp_insert_out_of_range s v i :
  (i < 0 \/ i > length s)%Z -> insert v i s = Ok (false, s).
Proof.
  intros H. unfold insert. unfold_m.
  destruct (i <? 0)%Z eqn:E1; [done|]. destruct (i >? length s)%Z eqn:E2; [done|].
  apply Z.ltb_ge in E1. rewrite Z.gtb_ltb in E2. apply Z.ltb_ge in E2. lia.
Qed.

Lemma last_fst_insert (a bb : list (loc * Z)) x y :
  last ((a ++ x :: y :: bb).*1) = last ((a ++ y :: bb).*1).
Proof.
  rewrite !fmap_app, !fmap_cons, !last_app, !last_cons.
  by destruct (last (bb.*1)).
Qed.

Lemma cpp_insert_repr s ns v i :
  repr s ns -> (0 <= i <= length s)%Z ->
  exists s', insert v i s = Ok (true, s') /\
             repr s' (take (Z.to_nat i) ns ++ (brk s, v) :: drop (Z.to_nat i) ns) /\
             console s' = console s.
Proof.
  intros H Hi. pose proof H as (Hseg & Ht & Hlen & Hb).
  unfold insert. unfold_m.
  destruct (i <? 0)%Z eqn:E1; [apply Z.ltb_lt in E1; lia|].
  destruct (i >? length s)%Z eqn:E2; [rewrite Z.gtb_ltb in E2; apply Z.ltb_lt in E2; lia|].
  cbn [orb]. destruct (i =? 0)%Z eqn:E3.
  { apply Z.eqb_eq in E3. subst i. simpl.
    destruct (cpp_prepend_repr s ns v H) as (s' & -> & Hr & Hc).
    exists s'. rewrite drop_0. done. }
  destruct (i =? length s)%Z eqn:E4.
  { apply Z.eqb_eq in E4. subst i. rewrite Hlen, Nat2Z.id.
    rewrite firstn_all, drop_all.
    destruct (cpp_append_repr s ns v H) as (s' & -> & Hr & Hc).
    exists s'. done. }
  apply Z.eqb_neq in E3, E4.
  pose proof (repr_fresh_notin _ _ H) as Hfresh.
  pose proof (repr_NoDup _ _ H) as Hnd.
  destruct s as [m b h t len con]. cbn [cells brk head tail length] in *.
  assert (Hsplit : ns = take (Z.to_nat i) ns ++ drop (Z.to_nat i) ns)
    by by rewrite take_drop.
  assert (Hla : List.length (take (Z.to_nat i) ns) = Z.to_nat i)
    by (rewrite length_take; lia).
  assert (Hlb : List.length (drop (Z.to_nat i) ns) = (List.length ns - Z.to_nat i)%nat)
    by by rewrite length_drop.
  destruct (take (Z.to_nat i) ns) as [|[lp vp] a _] using rev_ind;
    [simpl in Hla; lia|].
  destruct (drop (Z.to_nat i) ns) as [|[lq vq] bb]; [simpl in Hlb; lia|].
  rewrite length_app in Hla. simpl in Hla.
  rewrite Hsplit in Hseg, Ht, Hnd, Hfresh. clear Hsplit.
  rewrite <- app_assoc in Hseg, Hnd, Hfresh. simpl in Hseg, Hnd, Hfresh.
  apply lseg_app in Hseg as (r & Ha & Hrest).
  apply lseg_cons in Hrest as (-> & q & Hlp & Hbb).
  rewrite fmap_app, !fmap_cons in Hnd, Hfresh.
  apply not_elem_of_app in Hfresh as [Hf1 Hf2].
  apply not_elem_of_cons in Hf2 as [Hf2 Hf3].
  apply NoDup_app in Hnd as (_ & Hd1 & Hnd).
  apply NoDup_cons in Hnd as [Hd2 _].
  assert (Hd3 : lp ∉ a.*1).
  { intros Hin. apply (Hd1 lp Hin), elem_of_cons. by left. }
  replace (Z.to_nat (i - 1)) with (List.length a) by lia.
  rewrite (advance_lseg
             (mkState (<[b := mkNode v None]> m) (S b) h t len con) h (Some lp) a).
  2:{ psimpl. by apply lseg_insert_ne. }
  psimpl. rewrite lookup_insert_ne by done. rewrite Hlp. psimpl.
  rewrite lookup_insert_eq. psimpl.
  rewrite lookup_insert_ne by done. rewrite lookup_insert_ne by done.
  rewrite Hlp. psimpl.
  eexists. split; [reflexivity|]. split; [|done].
  unfold repr. psimpl. split_and!.
  - rewrite <- app_assoc. apply lseg_app. exists (Some lp). split.
    + do 3 (apply lseg_insert_ne; [done|]). done.
    + simpl. apply lseg_cons. split; [done|]. exists (Some b).
      split; [apply lookup_insert_eq|].
      apply lseg_cons. split; [done|]. exists q. split.
      * rewrite lookup_insert_ne by done. apply lookup_insert_eq.
      * do 3 (apply lseg_insert_ne; [done|]). done.
  - rewrite Ht. symmetry. apply last_fst_insert.
  - rewrite length_app in *. simpl in *. rewrite length_app. simpl. lia.
  - apply (below_insert _ (S b)); [| apply Hb in Hlp; lia | lia].
    apply (below_insert _ (S b)); [| lia | lia].
    apply (below_insert _ b); [done | lia | lia].
Qed.

Lemma cpp_deletePosition_out_of_range s i :
  (i < 0 \/ i >= length s)%Z -> deletePosition i s = Ok (false, s).
Proof.
  intros H. unfold deletePosition. unfold_m.
  destruct (i <? 0)%Z eqn:E1; [done|]. destruct (i >=? length s)%Z eqn:E2; [done|].
  apply Z.ltb_ge in E1. rewrite Z.geb_leb in E2. apply Z.leb_gt in E2. lia.
Qed.

Lemma last_fst_remove_mid (a bb : list (loc * Z)) x y z :
  last ((a ++ x :: y :: z :: bb).*1) = last ((a ++ x :: z :: bb).*1).
Proof.
  rewrite !fmap_app, !fmap_cons, !last_app, !last_cons.
  by destruct (last (bb.*1)).
Qed.

Lemma last_fst_not_mid (a bb : list (loc * Z)) x y z :
  NoDup ((a ++ x :: y :: z :: bb).*1) ->
  last ((a ++ x :: y :: z :: bb).*1) <> Some y.1.
Proof.
  rewrite !fmap_app, !fmap_cons. intros Hnd Hlast.
  apply NoDup_app in Hnd as (_ & _ & Hnd).
  apply NoDup_cons in Hnd as (_ & Hnd). apply NoDup_cons in Hnd as (Hy & _).
  apply Hy. rewrite !last_app, !last_cons in Hlast.
  destruct (last (bb.*1)) as [w|] eqn:E.
  - injection Hlast as ->. apply elem_of_cons. right.
    by apply last_Some_elem_of.
  - injection Hlast as ->. apply elem_of_cons. by left.
Qed.

Lemma cpp_deletePosition_repr s ns i :
  repr s ns -> (0 <= i < length s)%Z ->
  exists s', deletePosition i s = Ok (true, s') /\
             repr s' (take (Z.to_nat i) ns ++ drop (S (Z.to_nat i)) ns) /\
             console s' = console s /\ brk s' = brk s.
Proof.
  intros H Hi. pose proof H as (Hseg & Ht & Hlen & Hb).
  unfold deletePosition. unfold_m.
  destruct (i <? 0)%Z eqn:E1; [apply Z.ltb_lt in E1; lia|].
  destruct (i >=? length s)%Z eqn:E2;
    [rewrite Z.geb_leb in E2; apply Z.leb_le in E2; lia|].
  cbn [orb]. destruct (i =? 0)%Z eqn:E3.
  { apply Z.eqb_eq in E3. subst i. simpl.
    destruct ns as [|x ns]; [simpl in Hlen; lia|].
    destruct (cpp_deleteFirst_repr s x ns H) as (s' & -> & Hr & Hc & Hk).
    exists s'. rewrite ?drop_0. done. }
  apply Z.eqb_neq in E3.
  pose proof (repr_NoDup _ _ H) as Hnd.
  destruct s as [m b h t len con]. cbn [cells brk head tail length] in *.
  assert (Hsplit : ns = take (Z.to_nat i) ns ++ drop (Z.to_nat i) ns)
    by by rewrite take_drop.
  assert (Hla : List.length (take (Z.to_nat i) ns) = Z.to_nat i)
    by (rewrite length_take; lia).
  assert (Hlb : List.length (drop (Z.to_nat i) ns) = (List.length ns - Z.to_nat i)%nat)
    by by rewrite length_drop.
  assert (Hdd : drop (S (Z.to_nat i)) ns = drop 1 (drop (Z.to_nat i) ns)).
  { rewrite drop_drop. f_equal. lia. }
  rewrite Hdd. clear Hdd.
  destruct (take (Z.to_nat i) ns) as [|[lp vp] a _] using rev_ind;
    [simpl in Hla; lia|].
  destruct (drop (Z.to_nat i) ns) as [|[ld vd] bb]; [simpl in Hlb; lia|].
  rewrite length_app in Hla. simpl in Hla. rewrite ?drop_0. simpl.
  rewrite Hsplit in Hseg, Ht, Hnd, Hlen. clear Hsplit.
  rewrite <- app_assoc in Hseg, Hnd, Ht, Hlen. simpl in Hseg, Hnd, Ht, Hlen.
  pose proof Hnd as Hnd0.
  apply lseg_app in Hseg as (r & Ha & Hrest).
  apply lseg_cons in Hrest as (-> & q0 & Hlp & Hrest).
  apply lseg_cons in Hrest as (-> & q & Hld & Hbb).
  rewrite fmap_app, !fmap_cons in Hnd.
  apply NoDup_app in Hnd as (_ & Hd1 & Hnd).
  apply NoDup_cons in Hnd as [Hd2 Hnd].
  apply NoDup_cons in Hnd as [Hd3 _].
  apply not_elem_of_cons in Hd2 as [Hne Hd2].
  assert (Hd4 : lp ∉ a.*1).
  { intros Hin. apply (Hd1 lp Hin), elem_of_cons. by left. }
  assert (Hd5 : ld ∉ a.*1).
  { intros Hin. apply (Hd1 ld Hin), elem_of_cons. right. apply elem_of_cons. by left. }
  replace (Z.to_nat (i - 1)) with (List.length a) by lia.
  rewrite (advance_lseg (mkState m b h t len con) h (Some lp) a) by done.
  psimpl. rewrite Hlp. psimpl. rewrite Hld. psimpl. rewrite Hlp. psimpl.
  assert (Hrepr : forall t',
    t' = last ((a ++ (lp, vp) :: bb).*1) ->
    repr (mkState (delete ld (<[lp := mkNode vp q]> m)) b h t' (len - 1) con)
         (a ++ (lp, vp) :: bb)).
  { intros t' Ht'. unfold repr. psimpl. split_and!.
    - apply lseg_app. exists (Some lp). split.
      + apply lseg_delete_ne; [done|]. by apply lseg_insert_ne.
      + apply lseg_cons. split; [done|]. exists q. split.
        * rewrite lookup_delete_ne by done. apply lookup_insert_eq.
        * apply lseg_delete_ne; [done|]. by apply lseg_insert_ne.
    - done.
    - rewrite length_app in *. simpl in *. lia.
    - apply below_delete. apply (below_insert _ b); [done| |lia].
      by apply Hb in Hlp. }
  rewrite <- app_assoc. simpl.
  destruct bb as [|[lz vz] bb].
  - rewrite Ht. rewrite fmap_app, !fmap_cons, !last_app, !last_cons.
    cbn [last fmap list_fmap].
    rewrite bool_decide_eq_true_2 by done. psimpl.
    rewrite lookup_insert_ne by done. rewrite Hld. psimpl.
    eexists. split; [reflexivity|]. split_and!; try done.
    apply Hrepr. rewrite fmap_app, !fmap_cons, !last_app, !last_cons. done.
  - rewrite bool_decide_eq_false_2.
    2:{ rewrite Ht. intros Heq. symmetry in Heq. revert Heq.
        apply (last_fst_not_mid a bb (lp, vp) (ld, vd) (lz, vz) Hnd0). }
    psimpl. rewrite lookup_insert_ne by done. rewrite Hld. psimpl.
    eexists. split; [reflexivity|]. split_and!; try done.
    apply Hrepr. rewrite Ht. apply last_fst_remove_mid.
Qed.

Lemma cpp_reverse_loop_lseg rest :
  forall done m prev curr fuel b h t len con,
    lseg m curr rest None -> lseg m prev done None ->
    NoDup ((rest ++ done).*1) ->
    (List.length rest <= fuel)%nat ->
    exists m' prev',
      reverse_loop fuel prev curr (mkState m b h t len con)
        = Ok (prev', mkState m' b h t len con) /\
      lseg m' prev' (reverse rest ++ done) None /\
      (forall l n, m' !! l = Some n -> is_Some (m !! l)).
Proof.
  induction rest as [|[l v] rest IH]; intros done m prev curr fuel b h t len con.
  - intros ->%lseg_nil Hd _ _. exists m, prev. destruct fuel; simpl; eauto.
  - intros (-> & nx & Hl & Hrest)%lseg_cons Hd Hnd Hf.
    destruct fuel as [|f]; [simpl in Hf; lia|]. simpl in Hf.
    rewrite <- app_comm_cons, fmap_cons in Hnd. cbn [fst] in Hnd.
    pose proof Hnd as Hnd0.
    apply NoDup_cons in Hnd as [Hnin Hnd]. rewrite fmap_app in Hnin.
    apply not_elem_of_app in Hnin as [Hn1 Hn2].
    destruct (IH ((l, v) :: done) (<[l := mkNode v prev]> m) (Some l) nx f
                b h t len con) as (m' & prev' & Hrun & Hseg & Hdom).
    + by apply lseg_insert_ne.
    + apply lseg_cons. split; [done|]. exists prev.
      split; [apply lookup_insert_eq|]. by apply lseg_insert_ne.
    + rewrite fmap_app, fmap_cons. cbn [fst].
      rewrite <- Permutation_middle. by rewrite <- fmap_app.
    + lia.
    + exists m', prev'. split_and!.
      * simpl. unfold_m. rewrite Hl. psimpl. rewrite Hl. psimpl. exact Hrun.
      * rewrite reverse_cons, <- app_assoc. exact Hseg.
      * intros l' n' Hl'. apply Hdom in Hl'.
        destruct (decide (l = l')) as [<-|Hne]; [eauto|].
        by rewrite lookup_insert_ne in Hl'.
Qed.

Lemma cpp_reverse_repr s ns :
  repr s ns ->
  exists s', reverseLinkedList s = Ok (tt, s') /\ repr s' (reverse ns) /\
             console s' = console s /\ brk s' = brk s.
Proof.
  intros H. pose proof (repr_NoDup _ _ H) as Hnd.
  destruct H as (Hseg & Ht & Hlen & Hb).
  destruct s as [m b h t len con]. cbn [cells brk head tail length] in *.
  pose proof (lseg_length _ _ _ Hseg) as Hsize.
  destruct (cpp_reverse_loop_lseg ns [] m None h (S (size m)) b h h len con)
    as (m' & prev' & Hrun & Hseg' & Hdom); try done.
  - by rewrite app_nil_r.
  - lia.
  - unfold reverseLinkedList. unfold_m. rewrite Hrun. psimpl.
    eexists. split; [reflexivity|]. split_and!; try done.
    rewrite app_nil_r in Hseg'.
    unfold repr. psimpl. split_and!; try done.
    + rewrite fmap_reverse, last_reverse.
      destruct ns as [|[l0 v0] ns].
      * by apply lseg_nil in Hseg.
      * by apply lseg_cons in Hseg as (-> & _).
    + by rewrite length_reverse.
    + intros l n Hl. apply Hdom in Hl as [n' Hl]. eauto.
Qed.

End CppSpecs.

(** ** Every run of the header-based class stays well formed *)

Section CppRuns.

Import LinkedListCpp.
Implicit Types (s : state) (ns : list (loc * Z)).

Lemma cpp_create_repr v : repr (create v) [(0%nat, v)].
Proof.
  unfold repr, create. psimpl. split_and!; try done.
  - apply lseg_cons. split; [done|]. exists None. split; [|done].
    apply lookup_singleton_eq.
  - intros l n Hl. apply lookup_singleton_Some in Hl as [<- _]. lia.
Qed.

Lemma cpp_create_well_formed v : well_formed (create v) = true.
Proof. eapply repr_well_formed, cpp_create_repr. Qed.

Lemma cpp_exec_well_formed o s :
  well_formed s = true ->
  exists s', exec o s = Ok (tt, s') /\ well_formed s' = true.
Proof.
  intros [ns H]%well_formed_repr. destruct o as [v|v|v i| | |i|]; unfold exec.
  - destruct (cpp_append_repr s ns v H) as (s' & Hrun & Hr & _).
    exists s'. split; [done|]. by eapply repr_well_formed.
  - destruct (cpp_prepend_repr s ns v H) as (s' & Hrun & Hr & _).
    exists s'. split; [done|]. by eapply repr_well_formed.
  - destruct (decide (0 <= i <= length s)%Z) as [Hi|Hi].
    + destruct (cpp_insert_repr s ns v i H Hi) as (s' & Hrun & Hr & _).
      exists s'. unfold_m. rewrite Hrun. split; [done|].
      by eapply repr_well_formed.
    + exists s. unfold_m. rewrite cpp_insert_out_of_range by lia.
      split; [done|]. by eapply repr_well_formed.
  - destruct ns as [|x ns].
    + exists s. rewrite cpp_deleteFirst_empty.
      * split; [done|]. by eapply repr_well_formed.
      * by apply (repr_empty_iff _ _ H).
    + destruct (cpp_deleteFirst_repr s x ns H) as (s' & Hrun & Hr & _).
      exists s'. split; [done|]. by eapply repr_well_formed.
  - destruct ns as [|x ns _] using rev_ind.
    + exists s. rewrite cpp_deleteLast_empty.
      * split; [done|]. by eapply repr_well_formed.
      * by apply (repr_empty_iff _ _ H).
    + destruct (cpp_deleteLast_repr s x ns H) as (s' & Hrun & Hr & _).
      exists s'. split; [done|]. by eapply repr_well_formed.
  - destruct (decide (0 <= i < length s)%Z) as [Hi|Hi].
    + destruct (cpp_deletePosition_repr s ns i H Hi) as (s' & Hrun & Hr & _).
      exists s'. unfold_m. rewrite Hrun. split; [done|].
      by eapply repr_well_formed.
    + exists s. unfold_m. rewrite cpp_deletePosition_out_of_range by lia.
      split; [done|]. by eapply repr_well_formed.
  - destruct (cpp_reverse_repr s ns H) as (s' & Hrun & Hr & _).
    exists s'. split; [done|]. by eapply repr_well_formed.
Qed.

Lemma cpp_run_well_formed ops s :
  well_formed s = true ->
  exists s', run ops s = Ok s' /\ well_formed s' = true.
Proof.
  revert s. induction ops as [|o ops IH]; intros s Hwf.
  - exists s. done.
  - destruct (cpp_exec_well_formed o s Hwf) as (s1 & Hrun & Hwf1).
    destruct (IH s1 Hwf1) as (s' & Hrun' & Hwf').
    exists s'. split; [|done]. unfold run in *. simpl. by rewrite Hrun.
Qed.

(** The cached length counts the nodes reachable from head, after every
    sequence of calls on a freshly constructed list. *)
Lemma cpp_length_counts_nodes v ops :
  exists s, run ops (create v) = Ok s /\ reachable_count s = Some (length s).
Proof.
  destruct (cpp_run_well_formed ops (create v) (cpp_create_well_formed v))
    as (s & Hrun & [ns H]%well_formed_repr).
  exists s. split; [done|]. by eapply repr_reachable_count.
Qed.

Lemma repr_tail_invariant s ns :
  repr s ns ->
  (length s = 0%Z -> head s = None /\ tail s = None) /\
  ((length s > 0)%Z ->
     last_reachable s = Some (tail s) /\ get_next (tail s) s = Ok (None, s)).
Proof.
  intros H. pose proof (repr_nodes _ _ H) as Hn.
  destruct H as (Hseg & Ht & Hlen & Hb). split.
  - intros H0. destruct ns as [|x ns]; [|simpl in Hlen; lia].
    apply lseg_nil in Hseg. by rewrite Ht.
  - intros Hpos. unfold last_reachable. rewrite Hn, Ht. split; [done|].
    destruct ns as [|[lt vt] ns _] using rev_ind; [simpl in Hlen; lia|].
    rewrite last_fst_snoc. apply lseg_snoc in Hseg as [_ Hlt].
    unfold_m. by rewrite Hlt.
Qed.

(** After every sequence of calls: an empty list has no head and no tail,
    and in a non-empty list tail is the last node reachable from head and
    its next is nullptr. *)
Lemma cpp_tail_invariant v ops :
  exists s, run ops (create v) = Ok s /\
    (length s = 0%Z -> head s = None /\ tail s = None) /\
    ((length s > 0)%Z ->
       last_reachable s = Some (tail s) /\ get_next (tail s) s = Ok (None, s)).
Proof.
  destruct (cpp_run_well_formed ops (create v) (cpp_create_well_formed v))
    as (s & Hrun & [ns H]%well_formed_repr).
  exists s. split; [done|]. by eapply repr_tail_invariant.
Qed.

End CppRuns.

(** ** Laws of the header-based class *)

Section CppLaws.

Import LinkedListCpp.
Implicit Types (s : state) (ns : list (loc * Z)).

Lemma repr_head s ns : repr s ns -> head s = hd_error (ns.*1).
Proof.
  intros (Hseg & _). destruct ns as [|[l v] ns].
  - by apply lseg_nil in Hseg.
  - by apply lseg_cons in Hseg as (-> & _).
Qed.

Lemma repr_length_nonneg s ns : repr s ns -> (0 <= length s)%Z.
Proof. intros (_ & _ & -> & _). lia. Qed.

(** two states with the same chain show the same list *)
Lemma repr_same_view s1 s2 ns :
  repr s1 ns -> repr s2 ns ->
  nodes s1 = nodes s2 /\ values s1 = values s2 /\ length s1 = length s2 /\
  head s1 = head s2 /\ tail s1 = tail s2.
Proof.
  intros H1 H2. split_and!.
  - by rewrite (repr_nodes _ _ H1), (repr_nodes _ _ H2).
  - by rewrite (repr_values _ _ H1), (repr_values _ _ H2).
  - destruct H1 as (_ & _ & -> & _), H2 as (_ & _ & -> & _). done.
  - by rewrite (repr_head _ _ H1), (repr_head _ _ H2).
  - destruct H1 as (_ & -> & _), H2 as (_ & -> & _). done.
Qed.

(** In the header-based class, on every well-formed non-empty list,
    deletePosition(length - 1) returns true and leaves what deleteLast
    leaves: the same values, length, head and tail, the tail being the last
    node reachable from head. *)
Lemma cpp_deletePosition_last s :
  well_formed s = true -> (length s > 0)%Z ->
  exists s1 s2,
    deletePosition (length s - 1) s = Ok (true, s1) /\
    deleteLast s = Ok (tt, s2) /\
    values s1 = values s2 /\ length s1 = length s2 /\
    head s1 = head s2 /\ tail s1 = tail s2 /\
    last_reachable s1 = Some (tail s1).
Proof.
  intros [ns H]%well_formed_repr Hpos.
  pose proof H as (_ & _ & Hlen & _).
  destruct ns as [|x ns _] using rev_ind; [simpl in Hlen; lia|].
  rewrite length_app in Hlen. simpl in Hlen.
  destruct (cpp_deletePosition_repr s _ (length s - 1) H) as (s1 & Hr1 & H1 & _);
    [lia|].
  destruct (cpp_deleteLast_repr s x ns H) as (s2 & Hr2 & H2 & _).
  replace (Z.to_nat (length s - 1)) with (List.length ns) in H1 by lia.
  rewrite take_app_length in H1.
  rewrite drop_ge, app_nil_r in H1 by (rewrite length_app; simpl; lia).
  exists s1, s2. destruct (repr_same_view s1 s2 ns H1 H2) as (_ & ? & ? & ? & ?).
  split_and!; try done.
  unfold last_reachable. rewrite (repr_nodes _ _ H1).
  by destruct H1 as (_ & -> & _).
Qed.

(** In the header-based class, on every well-formed list, the empty one
    included, two calls of reverseLinkedList run without a fault and give
    the list back: the same values, length, head and tail. *)
Lemma cpp_reverse_involution s :
  well_formed s = true ->
  exists s1 s2,
    reverseLinkedList s = Ok (tt, s1) /\
    reverseLinkedList s1 = Ok (tt, s2) /\
    values s2 = values s /\ length s2 = length s /\
    head s2 = head s /\ tail s2 = tail s.
Proof.
  intros [ns H]%well_formed_repr.
  destruct (cpp_reverse_repr s ns H) as (s1 & Hr1 & H1 & _).
  destruct (cpp_reverse_repr s1 _ H1) as (s2 & Hr2 & H2 & _).
  rewrite reverse_involutive in H2.
  exists s1, s2. destruct (repr_same_view s2 s ns H2 H) as (_ & ? & ? & ? & ?).
  done.
Qed.

(** reverse turns the value sequence around and swaps head and tail *)
Lemma cpp_reverse_swaps s :
  well_formed s = true ->
  exists s' vs,
    reverseLinkedList s = Ok (tt, s') /\
    values s = Some vs /\ values s' = Some (reverse vs) /\
    head s' = tail s /\ tail s' = head s /\ length s' = length s.
Proof.
  intros [ns H]%well_formed_repr.
  destruct (cpp_reverse_repr s ns H) as (s' & Hr & H' & _).
  exists s', (ns.*2). split_and!; try done.
  - by apply repr_values.
  - rewrite (repr_values _ _ H'). by rewrite fmap_reverse.
  - rewrite (repr_head _ _ H'). destruct H as (_ & -> & _).
    by rewrite fmap_reverse, head_reverse.
  - rewrite (repr_head _ _ H). destruct H' as (_ & -> & _).
    by rewrite fmap_reverse, last_reverse.
  - destruct H as (_ & _ & -> & _), H' as (_ & _ & -> & _).
    by rewrite length_reverse.
Qed.

Lemma cpp_reverse_loop_null fuel prev s :
  reverse_loop fuel prev None s = Ok (prev, s).
Proof. by destruct fuel. Qed.

(** on an empty or one-element list reverse changes nothing *)
Lemma cpp_reverse_short s :
  well_formed s = true -> (length s <= 1)%Z ->
  reverseLinkedList s = Ok (tt, s).
Proof.
  intros [ns H]%well_formed_repr Hle. destruct H as (Hseg & Ht & Hlen & Hb).
  destruct s as [m b h t len con]. cbn [cells brk head tail length] in *.
  destruct ns as [|[l v] [|x ns]]; [| |simpl in Hlen; lia].
  - apply lseg_nil in Hseg. subst h. simpl in Ht. subst t.
    unfold reverseLinkedList. unfold_m. done.
  - apply lseg_cons in Hseg as (-> & nx & Hl & ->%lseg_nil).
    simpl in Ht. subst t.
    unfold reverseLinkedList. unfold_m. simpl. unfold_m.
    rewrite Hl. psimpl. rewrite Hl. psimpl.
    rewrite cpp_reverse_loop_null. psimpl. by rewrite insert_id.
Qed.

(** insert at index length is append *)
Lemma cpp_insert_length_append s v :
  well_formed s = true ->
  insert v (length s) s = (append v;; mret true) s.
Proof.
  intros [ns H]%well_formed_repr.
  pose proof (repr_length_nonneg _ _ H) as Hnn.
  unfold insert. unfold_m.
  destruct (length s <? 0)%Z eqn:E1; [apply Z.ltb_lt in E1; lia|].
  rewrite Z.gtb_ltb, Z.ltb_irrefl, Z.eqb_refl. cbn [orb].
  destruct (length s =? 0)%Z eqn:E3; [|done].
  apply Z.eqb_eq in E3.
  assert (Hh : head s = None).
  { destruct H as (Hseg & _ & Hlen & _).
    destruct ns as [|x ns]; [by apply lseg_nil in Hseg|simpl in Hlen; lia]. }
  unfold prepend, append. unfold_m. by rewrite Hh.
Qed.

Lemma insert_delete_nodes ns (x : loc * Z) (n : nat) :
  (n <= List.length ns)%nat ->
  take n (take n ns ++ x :: drop n ns)
    ++ drop (S n) (take n ns ++ x :: drop n ns) = ns.
Proof.
  intros Hn.
  rewrite take_app_length' by (rewrite length_take; lia).
  change (x :: drop n ns) with ([x] ++ drop n ns). rewrite app_assoc.
  rewrite drop_app_length'.
  - apply take_drop.
  - rewrite length_app, length_take. simpl. lia.
Qed.

End CppLaws.

(** ** The JavaScript class on well-formed states *)

Section JsSpecs.

Import LinkedListJs.
Implicit Types (s : state) (ns : list (loc * Z)).

Lemma js_deleteFirst_empty s :
  head s = None -> deleteFirst s = Ok (None, warned s).
Proof. intros H. destruct s. simpl in H. by subst. Qed.

Lemma js_deleteLast_empty s :
  head s = None -> deleteLast s = Ok (None, warned s).
Proof. intros H. destruct s. simpl in H. by subst. Qed.

Lemma js_deleteFirst_repr s l0 v0 ns :
  repr s ((l0, v0) :: ns) ->
  exists s', deleteFirst s = Ok (Some v0, s') /\ repr s' ns /\
             console s' = console s.
Proof.
  intros (Hseg & Ht & Hlen & Hb).
  destruct s as [m b h t len con]. cbn [cells brk head tail length] in *.
  apply lseg_cons in Hseg as (-> & nx & Hl & Hseg).
  unfold deleteFirst. unfold_m. repeat (rewrite Hl; psimpl).
  destruct ns as [|[l1 v1] ns].
  - apply lseg_nil in Hseg. subst nx.
    eexists. split; [reflexivity|]. split; [|done].
    unfold repr. psimpl. split_and!; try done. simpl in *. lia.
  - pose proof Hseg as (-> & _)%lseg_cons.
    eexists. split; [reflexivity|]. split; [|done].
    unfold repr. psimpl. split_and!; try done. simpl in *. lia.
Qed.

Lemma js_deleteLast_repr s lt vt ns :
  repr s (ns ++ [(lt, vt)]) ->
  exists s', deleteLast s = Ok (Some vt, s') /\ repr s' ns /\
             console s' = console s.
Proof.
  intros H. pose proof (repr_NoDup _ _ H) as Hnd.
  destruct H as (Hseg & Ht & Hlen & Hb).
  destruct s as [m b h t len con]. cbn [cells brk head tail length] in *.
  pose proof (lseg_length _ _ _ Hseg) as Hsize.
  rewrite last_fst_snoc in Ht. subst t.
  apply lseg_snoc in Hseg as [Hseg Hlt].
  rewrite fst_snoc in Hnd. apply NoDup_app in Hnd as (Hnd & Hdisj & _).
  assert (Hnin : lt ∉ ns.*1).
  { intros Hin. by apply (Hdisj lt Hin), list_elem_of_singleton. }
  rewrite length_app in Hlen, Hsize. simpl in Hlen, Hsize.
  destruct ns as [|[lp vp] ns _] using rev_ind.
  - apply lseg_nil in Hseg. subst h.
    unfold deleteLast. unfold_m.
    rewrite bool_decide_eq_true_2 by done. psimpl. rewrite Hlt. psimpl.
    eexists. split; [reflexivity|]. split; [|done].
    unfold repr. psimpl. split_and!; try done. simpl in *. lia.
  - destruct (lseg_snoc_head _ _ _ _
                (proj2 (lseg_snoc _ _ _ _ _ _) (conj Hseg Hlt))) as [lh ->].
    apply lseg_snoc in Hseg as [Hseg Hlp].
    rewrite fst_snoc in Hnd, Hnin.
    apply NoDup_app in Hnd as (_ & Hdisj' & _).
    apply not_elem_of_app in Hnin as [Hnin Hne].
    apply not_elem_of_cons in Hne as [Hne _].
    rewrite length_app in Hlen, Hsize. simpl in Hlen, Hsize.
    unfold deleteLast. unfold_m.
    rewrite bool_decide_eq_false_2.
    2:{ intros [= ->]. apply lseg_first in Hseg as [[[= ->] _]|(l' & [= <-] & Hin)];
        done. }
    psimpl.
    rewrite (find_before_lseg
               (mkState m b (Some lh) (Some lt) len con)
               (Some lh) ns lp vp lt (S (size m))); try done.
    2:{ lia. }
    psimpl. rewrite Hlt. psimpl. rewrite Hlp. psimpl.
    eexists. split; [reflexivity|]. split; [|done].
    unfold repr. psimpl. split_and!.
    + apply lseg_snoc. split; [|apply lookup_insert_eq].
      apply lseg_insert_ne; [|done].
      intros Hin. by apply (Hdisj' lp Hin), list_elem_of_singleton.
    + by rewrite last_fst_snoc.
    + rewrite length_app. simpl. lia.
    + apply (below_insert _ b); [done| |lia]. by apply Hb in Hlp.
Qed.

End JsSpecs.

(** ** The single-file class: reversal of a non-empty list *)

Section InlineSpecs.

Import LinkedListInline.
Implicit Types (s : state) (ns : list (loc * Z)).

Lemma inline_reverse_loop_lseg rest :
  forall done m before temp b h t len con,
    lseg m temp rest None -> lseg m before done None ->
    NoDup ((rest ++ done).*1) ->
    exists m' prev',
      reverse_loop (List.length rest) before temp (mkState m b h t len con)
        = Ok (tt, mkState m' b h t len con) /\
      lseg m' prev' (reverse rest ++ done) None /\
      (forall l n, m' !! l = Some n -> is_Some (m !! l)).
Proof.
  induction rest as [|[l v] rest IH]; intros done m before temp b h t len con.
  - intros _ Hd _. exists m, before. simpl. eauto.
  - intros (-> & nx & Hl & Hrest)%lseg_cons Hd Hnd.
    rewrite <- app_comm_cons, fmap_cons in Hnd. cbn [fst] in Hnd.
    pose proof Hnd as Hnd0.
    apply NoDup_cons in Hnd as [Hnin Hnd]. rewrite fmap_app in Hnin.
    apply not_elem_of_app in Hnin as [Hn1 Hn2].
    destruct (IH ((l, v) :: done) (<[l := mkNode v before]> m) (Some l) nx
                b h t len con) as (m' & prev' & Hrun & Hseg & Hdom).
    + by apply lseg_insert_ne.
    + apply lseg_cons. split; [done|]. exists before.
      split; [apply lookup_insert_eq|]. by apply lseg_insert_ne.
    + rewrite fmap_app, fmap_cons. cbn [fst].
      rewrite <- Permutation_middle. by rewrite <- fmap_app.
    + exists m', prev'. split_and!.
      * simpl. unfold_m. rewrite Hl. psimpl. rewrite Hl. psimpl. exact Hrun.
      * rewrite reverse_cons, <- app_assoc. exact Hseg.
      * intros l' n' Hl'. apply Hdom in Hl'.
        destruct (decide (l = l')) as [<-|Hne]; [eauto|].
        by rewrite lookup_insert_ne in Hl'.
Qed.

(** on a non-empty list the single-file reverseLinkedList reverses *)
Lemma inline_reverse_repr s ns :
  repr s ns -> ns <> [] ->
  exists s', reverseLinkedList s = Ok (tt, s') /\ repr s' (reverse ns) /\
             console s' = console s.
Proof.
  intros H Hne. pose proof (repr_NoDup _ _ H) as Hnd.
  pose proof (repr_head _ _ H) as Hh.
  destruct H as (Hseg & Ht & Hlen & Hb).
  destruct s as [m b h t len con]. cbn [cells brk head tail length] in *.
  destruct ns as [|[lt vt] ns _] using rev_ind; [done|].
  rewrite last_fst_snoc in Ht. subst t.
  destruct (lseg_snoc_head _ _ _ _ Hseg) as [l0 ->].
  assert (Hl0 : is_Some (m !! l0)).
  { eapply lseg_lookup; [exact Hseg|]. apply list_elem_of_lookup. exists 0%nat.
    rewrite <- head_lookup. by rewrite <- Hh. }
  destruct Hl0 as [n0 Hl0].
  destruct (inline_reverse_loop_lseg (ns ++ [(lt, vt)]) [] m None (Some l0)
              b (Some lt) (Some l0) len con)
    as (m' & prev' & Hrun & Hseg' & Hdom); try done.
  { by rewrite app_nil_r. }
  unfold reverseLinkedList. unfold_m. rewrite Hl0. psimpl.
  replace (Z.to_nat len) with (List.length (ns ++ [(lt, vt)])) by lia.
  rewrite Hrun.
  eexists. split; [reflexivity|]. split; [|done].
  rewrite app_nil_r in Hseg'. rewrite reverse_snoc in Hseg' |- *.
  pose proof Hseg' as (-> & _)%lseg_cons.
  unfold repr. psimpl. split_and!; try done.
  - rewrite <- reverse_snoc, fmap_reverse, last_reverse. exact Hh.
  - rewrite Hlen, length_app. simpl. rewrite length_reverse. lia.
  - intros l n Hl. apply Hdom in Hl as [n' Hl]. eauto.
Qed.

End InlineSpecs.

(** ** The example states are reached by the classes *)

Lemma emptied_reached :
  LinkedListCpp.run [DeleteFirst] (LinkedListCpp.create 10) = Ok emptied /\
  LinkedListInline.run [DeleteLast] (LinkedListInline.create 10) = Ok emptied.
Proof. split; vm_compute; reflexivity. Qed.

Lemma two_nodes_reached :
  LinkedListCpp.run [Append 10] (LinkedListCpp.create 20) = Ok two_nodes /\
  LinkedListJs.append 10 (LinkedListJs.create 20) = Ok (tt, two_nodes).
Proof. split; vm_compute; reflexivity. Qed.

(** ** The claims *)

(** C1 (the cached length equals the number of nodes reachable from head
    after every sequence of operations).  It fails in the single-file class.
    With valid indices only: after LinkedList(10), append(20),
    deletePosition(1) the tail pointer still holds the deleted node, and the
    next append(30) writes through it.  Without touching freed memory:
    insert(99, -1) is accepted and links the new node behind head without
    moving tail, so append(20) then cuts it off: length says 3 where 2 nodes
    are reachable.  The header-based class keeps the count
    ([cpp_length_counts_nodes]). *)
Theorem inline_length_out_of_step :
  LinkedListInline.run [Append 20; DeletePosition 1; Append 30]
    (LinkedListInline.create 10) = Fault /\
  exists s,
    LinkedListInline.run [Insert 99 (-1); Append 20]
      (LinkedListInline.create 10) = Ok s /\
    length s = 3%Z /\ reachable_count s = Some 2%Z /\
    values s = Some [10%Z; 20%Z].
Proof.
  split; [vm_compute; reflexivity|].
  eexists. split; [vm_compute; reflexivity|].
  repeat split; vm_compute; reflexivity.
Qed.

(** C2 (length 0 means head and tail are both none; otherwise tail is the
    last node reachable from head and its next is none).  It fails in the
    single-file class, whose deletePosition never touches tail: removing the
    only node leaves length 0 and head none with tail still set, and removing
    the last of two nodes leaves tail on the deleted node, which is not the
    last node reachable from head and cannot be read.  The header-based class
    keeps the invariant ([cpp_tail_invariant]). *)
Theorem inline_deletePosition_stale_tail :
  (exists s,
     LinkedListInline.run [DeletePosition 0] (LinkedListInline.create 10) = Ok s /\
     length s = 0%Z /\ head s = None /\ tail s = Some 0%nat) /\
  (exists s,
     LinkedListInline.run [Append 20; DeletePosition 1]
       (LinkedListInline.create 10) = Ok s /\
     length s = 1%Z /\ last_reachable s = Some (Some 0%nat) /\
     tail s = Some 1%nat /\ get_next (tail s) s = Fault).
Proof.
  split.
  - eexists. split; [vm_compute; reflexivity|].
    repeat split; vm_compute; reflexivity.
  - eexists. split; [vm_compute; reflexivity|].
    repeat split; vm_compute; reflexivity.
Qed.

(** C3 (insert with an index outside [0, length] fails and leaves the list
    unchanged).  It fails in the single-file class, whose insert has no range
    check: on the list [10], index -1 is accepted, true is returned and the
    list becomes [10, 99] with length 2; index 5 walks off the end of the
    chain.  The header-based class returns false and changes nothing
    ([cpp_insert_out_of_range]). *)
Theorem inline_insert_unchecked_index :
  (exists s,
     LinkedListInline.insert 99 (-1) (LinkedListInline.create 10) = Ok (true, s) /\
     values s = Some [10%Z; 99%Z] /\ length s = 2%Z /\
     tail s = tail (LinkedListInline.create 10)) /\
  LinkedListInline.insert 99 5 (LinkedListInline.create 10) = Fault.
Proof.
  split; [|vm_compute; reflexivity].
  eexists. split; [vm_compute; reflexivity|].
  repeat split; vm_compute; reflexivity.
Qed.

(** C4 (deletePosition at index length - 1 behaves as deleteLast, tail
    moving to the predecessor of the removed node).  It fails in the
    single-file class: on the list [10, 20] both calls leave the values [10]
    and length 1, but deleteLast moves tail to the node of 10 while
    deletePosition(1) leaves tail on the deleted node.  In the header-based
    class the two agree ([cpp_deletePosition_last]). *)
Theorem inline_deletePosition_last_keeps_tail :
  exists s s1 s2,
    LinkedListInline.run [Append 20] (LinkedListInline.create 10) = Ok s /\
    LinkedListInline.deletePosition (length s - 1) s = Ok (true, s1) /\
    LinkedListInline.deleteLast s = Ok (tt, s2) /\
    values s1 = Some [10%Z] /\ values s2 = Some [10%Z] /\
    length s1 = 1%Z /\ length s2 = 1%Z /\
    tail s2 = Some 0%nat /\ tail s1 = Some 1%nat /\
    cells s1 !! 1%nat = None.
Proof.
  eexists. eexists. eexists.
  split; [vm_compute; reflexivity|].
  split; [vm_compute; reflexivity|].
  split; [vm_compute; reflexivity|].
  repeat split; vm_compute; reflexivity.
Qed.

(** C5 (reverse applied twice gives the list back, for every list).  It
    fails in the single-file class on the empty list: reverseLinkedList reads
    head->next before its loop, and head is nullptr there (on a non-empty
    list it does reverse, [inline_reverse_repr]).  In the header-based class
    reverse is an involution on every list ([cpp_reverse_involution]). *)
Theorem inline_reverse_twice_on_empty :
  LinkedListInline.run [DeleteFirst; Reverse; Reverse]
    (LinkedListInline.create 10) = Fault /\
  exists s,
    LinkedListInline.run [DeleteFirst] (LinkedListInline.create 10) = Ok s /\
    values s = Some [] /\ length s = 0%Z.
Proof.
  split; [vm_compute; reflexivity|].
  eexists. split; [vm_compute; reflexivity|].
  split; vm_compute; reflexivity.
Qed.

(** C6 (reverse turns the values around, swaps head and tail, keeps length,
    and is a no-op without failure on an empty or one-element list).  It
    fails in the single-file class on the empty list, where
    reverseLinkedList dereferences the null head; on the one-element list it
    changes nothing, and every non-empty list is reversed
    ([inline_reverse_repr]).  The header-based class does all of it
    ([cpp_reverse_swaps], [cpp_reverse_short]). *)
Theorem inline_reverse_on_empty :
  LinkedListInline.run [DeleteFirst] (LinkedListInline.create 10) = Ok emptied /\
  LinkedListInline.reverseLinkedList emptied = Fault /\
  LinkedListInline.reverseLinkedList (LinkedListInline.create 10)
    = Ok (tt, LinkedListInline.create 10).
Proof. repeat split; vm_compute; reflexivity. Qed.

(** C7, as stated (on an empty list deleteFirst and deleteLast report the
    condition to the caller and never swallow it), fails: in the header-based
    class both return with the state exactly as it was, nothing returned and
    nothing printed. *)
Lemma cpp_delete_on_empty_unreported :
  LinkedListCpp.deleteFirst emptied = Ok (tt, emptied) /\
  LinkedListCpp.deleteLast emptied = Ok (tt, emptied) /\
  ~ reports_empty LinkedListCpp.deleteFirst emptied /\
  ~ reports_empty LinkedListCpp.deleteLast emptied.
Proof.
  split; [reflexivity|]. split; [reflexivity|].
  split; intros (s' & Hrun & _ & Hcon); vm_compute in Hrun;
    injection Hrun as <-; by apply Hcon.
Qed.

(** C7, amended: on every empty list deleteFirst and deleteLast return
    without a fault and leave head, tail, length and the nodes as they were.
    Both C++ functions return void: the header-based class leaves the state
    untouched, the single-file class adds one error line to the console. *)
Theorem delete_on_empty_changes_nothing s :
  head s = None ->
  LinkedListCpp.deleteFirst s = Ok (tt, s) /\
  LinkedListCpp.deleteLast s = Ok (tt, s) /\
  LinkedListInline.deleteFirst s = Ok (tt, complained s) /\
  LinkedListInline.deleteLast s = Ok (tt, complained s) /\
  same_list s (complained s) /\
  console (complained s)
    = console s ++ ["Error: Cannot delete from an empty list."].
Proof.
  intros H. destruct s as [m b h t len con]. simpl in H. subst h.
  repeat split.
Qed.

Lemma delete_on_empty_changes_nothing_witness :
  head emptied = None /\
  LinkedListCpp.deleteFirst emptied = Ok (tt, emptied) /\
  LinkedListInline.deleteLast emptied = Ok (tt, complained emptied).
Proof.
  split; [reflexivity|].
  pose proof (delete_on_empty_changes_nothing emptied eq_refl) as H.
  split; [apply H|]. apply H.
Defined.

(** C8 (insert(v, length) behaves as append(v)).  It fails in the
    single-file class, which treats index length - 1 as the append case:
    on the list [10], insert(20, 1) walks one node past the end and
    dereferences nullptr, where append(20) gives [10, 20].  The header-based
    class runs append at index length ([cpp_insert_length_append]). *)
Theorem inline_insert_at_length :
  LinkedListInline.insert 20 (length (LinkedListInline.create 10))
    (LinkedListInline.create 10) = Fault /\
  exists s,
    LinkedListInline.append 20 (LinkedListInline.create 10) = Ok (tt, s) /\
    values s = Some [10%Z; 20%Z] /\ length s = 2%Z.
Proof.
  split; [vm_compute; reflexivity|].
  eexists. split; [vm_compute; reflexivity|].
  split; vm_compute; reflexivity.
Qed.

(** C9: in the header-based class, for every well-formed list, value v and
    index i with 0 <= i <= length, insert(v, i) succeeds, the following
    deletePosition(i) succeeds, and the list is as before: the same values
    (indeed the same nodes), the same length, head and tail. *)
Theorem cpp_insert_then_deletePosition s v i :
  well_formed s = true -> (0 <= i <= length s)%Z ->
  exists s1 s2,
    LinkedListCpp.insert v i s = Ok (true, s1) /\
    LinkedListCpp.deletePosition i s1 = Ok (true, s2) /\
    values s2 = values s /\ length s2 = length s /\
    nodes s2 = nodes s /\ head s2 = head s /\ tail s2 = tail s.
Proof.
  intros [ns H]%well_formed_repr Hi.
  pose proof H as (_ & _ & Hlen & _).
  destruct (cpp_insert_repr s ns v i H Hi) as (s1 & Hr1 & H1 & _).
  pose proof H1 as (_ & _ & Hlen1 & _).
  rewrite length_app, length_take in Hlen1. simpl in Hlen1.
  rewrite length_drop in Hlen1.
  destruct (cpp_deletePosition_repr s1 _ i H1) as (s2 & Hr2 & H2 & _); [lia|].
  rewrite insert_delete_nodes in H2 by lia.
  exists s1, s2. destruct (repr_same_view s2 s ns H2 H) as (? & ? & ? & ? & ?).
  done.
Qed.

Lemma cpp_insert_then_deletePosition_witness :
  well_formed two_nodes = true /\ (0 <= 1 <= length two_nodes)%Z /\
  exists s1 s2,
    LinkedListCpp.insert 99 1 two_nodes = Ok (true, s1) /\
    values s1 = Some [20%Z; 99%Z; 10%Z] /\
    LinkedListCpp.deletePosition 1 s1 = Ok (true, s2) /\
    values s2 = Some [20%Z; 10%Z] /\ length s2 = 2%Z.
Proof.
  split; [vm_compute; reflexivity|]. split; [simpl; lia|].
  destruct (cpp_insert_then_deletePosition two_nodes 99 1)
    as (s1 & s2 & Hr1 & Hr2 & Hv & Hl & _);
    [vm_compute; reflexivity | simpl; lia |].
  exists s1, s2. vm_compute in Hr1. injection Hr1 as <-.
  repeat split; try done.
Defined.

(** C10: in the JavaScript class, on every well-formed list, deleteFirst
    and deleteLast on a non-empty list return the value of the node they
    remove (the first, respectively the last, value) and leave the remaining
    values with length one less; on an empty list they return null and leave
    head, tail, length and the nodes unchanged (a warning goes to the
    console). *)
Theorem js_delete_returns_removed_value s :
  well_formed s = true ->
  match values s with
  | None => False
  | Some [] =>
      LinkedListJs.deleteFirst s = Ok (None, warned s) /\
      LinkedListJs.deleteLast s = Ok (None, warned s) /\
      same_list s (warned s)
  | Some (v :: vs) =>
      (exists s1,
         LinkedListJs.deleteFirst s = Ok (Some v, s1) /\
         get_value (head s) s = Ok (v, s) /\
         values s1 = Some vs /\ length s1 = (length s - 1)%Z) /\
      (exists s2 front vn,
         v :: vs = front ++ [vn] /\
         LinkedListJs.deleteLast s = Ok (Some vn, s2) /\
         get_value (tail s) s = Ok (vn, s) /\
         values s2 = Some front /\ length s2 = (length s - 1)%Z)
  end.
Proof.
  intros [ns H]%well_formed_repr. rewrite (repr_values _ _ H).
  destruct ns as [|[l0 v0] ns]; simpl.
  - assert (Hh : head s = None) by by apply (repr_empty_iff _ _ H).
    rewrite js_deleteFirst_empty, js_deleteLast_empty by done.
    repeat split.
  - pose proof H as (Hseg & Ht & Hlen & _). split.
    + destruct (js_deleteFirst_repr s l0 v0 ns H) as (s1 & Hr & H1 & _).
      exists s1. split_and!; try done.
      * apply lseg_cons in Hseg as (Hh & nx & Hl & _).
        unfold_m. by rewrite Hh, Hl.
      * by apply repr_values.
      * destruct H1 as (_ & _ & -> & _). simpl in Hlen. lia.
    + destruct (exists_last (l := (l0, v0) :: ns)) as (front & [lt vt] & Heq);
        [done|].
      rewrite Heq in H.
      destruct (js_deleteLast_repr s lt vt front H) as (s2 & Hr & H2 & _).
      exists s2, (front.*2), vt. split_and!; try done.
      * pose proof (f_equal (fmap snd) Heq) as Hv.
        rewrite fmap_app in Hv. exact Hv.
      * rewrite Ht, Heq, last_fst_snoc.
        destruct H as (Hseg' & _). apply lseg_snoc in Hseg' as [_ Hlt].
        unfold_m. by rewrite Hlt.
      * by apply repr_values.
      * destruct H2 as (_ & _ & -> & _). rewrite Hlen, Heq, length_app.
        simpl. lia.
Qed.

Lemma js_delete_returns_removed_value_witness :
  well_formed two_nodes = true /\ well_formed emptied = true /\
  (exists s1, LinkedListJs.deleteFirst two_nodes = Ok (Some 20%Z, s1) /\
              values s1 = Some [10%Z]) /\
  (exists s2, LinkedListJs.deleteLast two_nodes = Ok (Some 10%Z, s2) /\
              values s2 = Some [20%Z]) /\
  LinkedListJs.deleteFirst emptied = Ok (None, warned emptied) /\
  LinkedListJs.deleteLast emptied = Ok (None, warned emptied).
Proof.
  assert (W2 : well_formed two_nodes = true) by (vm_compute; reflexivity).
  assert (W0 : well_formed emptied = true) by (vm_compute; reflexivity).
  split; [exact W2|]. split; [exact W0|].
  pose proof (js_delete_returns_removed_value two_nodes W2) as H2.
  pose proof (js_delete_returns_removed_value emptied W0) as H0.
  assert (Hv2 : values two_nodes = Some [20%Z; 10%Z]) by (vm_compute; reflexivity).
  assert (Hv0 : values emptied = Some []) by (vm_compute; reflexivity).
  rewrite Hv2 in H2. rewrite Hv0 in H0.
  destruct H2 as [(s1 & Hr1 & _ & Hv1 & _)
                  (s2 & front & vn & Heq & Hr2 & _ & Hvs & _)].
  destruct H0 as (Hf & Hl & _).
  assert (Hfront : front = [20%Z] /\ vn = 10%Z).
  { destruct front as [|a [|b [|c front]]]; simplify_eq/=; try done;
      destruct front; done. }
  destruct Hfront as [-> ->].
  split; [by exists s1|]. split; [by exists s2|]. done.
Defined.

(** ** Further properties of the header-based class *)

Section CppMore.

Import LinkedListCpp.
Implicit Types (s : state) (ns : list (loc * Z)).

Lemma repr_length s ns : repr s ns -> length s = Z.of_nat (List.length ns).
Proof. by intros (_ & _ & ? & _). Qed.

Lemma repr_tail_value s ns lt vt :
  repr s (ns ++ [(lt, vt)]) -> get_value (tail s) s = Ok (vt, s).
Proof.
  intros (Hseg & Ht & _). rewrite Ht, last_fst_snoc.
  apply lseg_snoc in Hseg as [_ Hlt]. unfold_m. by rewrite Hlt.
Qed.

Lemma repr_head_value s l0 v0 ns :
  repr s ((l0, v0) :: ns) -> get_value (head s) s = Ok (v0, s).
Proof.
  intros (Hseg & _). apply lseg_cons in Hseg as (-> & nx & Hl & _).
  unfold_m. by rewrite Hl.
Qed.

End CppMore.

(** Every sequence of calls on a freshly constructed list of the header-based
    class runs without a fault and leaves a list whose cached length is the
    number of nodes reachable from head, whose head and tail are both nullptr
    when it is empty, and whose tail is otherwise the last reachable node,
    with next nullptr. *)
Theorem cpp_runs_keep_invariants v ops :
  exists s,
    LinkedListCpp.run ops (LinkedListCpp.create v) = Ok s /\
    well_formed s = true /\
    reachable_count s = Some (length s) /\
    (length s = 0%Z -> head s = None /\ tail s = None) /\
    ((length s > 0)%Z ->
       last_reachable s = Some (tail s) /\ get_next (tail s) s = Ok (None, s)).
Proof.
  destruct (cpp_run_well_formed ops _ (cpp_create_well_formed v))
    as (s & Hrun & Hwf).
  pose proof Hwf as [ns H]%well_formed_repr.
  exists s. split_and!; try done.
  - by eapply repr_reachable_count.
  - by apply (repr_tail_invariant _ _ H).
  - by apply (repr_tail_invariant _ _ H).
Qed.

(** In the header-based class a position outside the list is refused:
    deletePosition with index < 0 or index >= length, and insert with index
    < 0 or index > length, return false and leave the whole state as it
    was. *)
Theorem cpp_out_of_range_rejected s v i :
  (i < 0 \/ length s <= i)%Z ->
  LinkedListCpp.deletePosition i s = Ok (false, s) /\
  (i <> length s -> LinkedListCpp.insert v i s = Ok (false, s)).
Proof.
  intros Hi. split.
  - apply cpp_deletePosition_out_of_range. lia.
  - intros Hne. apply cpp_insert_out_of_range. lia.
Qed.

Lemma cpp_out_of_range_rejected_witness :
  (5 < 0 \/ length two_nodes <= 5)%Z /\
  LinkedListCpp.deletePosition 5 two_nodes = Ok (false, two_nodes) /\
  LinkedListCpp.insert 99 5 two_nodes = Ok (false, two_nodes).
Proof.
  assert (H : (5 < 0 \/ length two_nodes <= 5)%Z) by (right; simpl; lia).
  split; [exact H|].
  destruct (cpp_out_of_range_rejected two_nodes 99 5 H) as [Hd Hins].
  split; [exact Hd|]. apply Hins. simpl. lia.
Defined.

(** In the header-based class insert(v, i) with 0 <= i <= length returns
    true and puts v at position i: the values before position i stay, v
    follows, then the former values from position i on; length grows by one
    and the list stays well formed. *)
Theorem cpp_insert_places_value s v i :
  well_formed s = true -> (0 <= i <= length s)%Z ->
  exists s' vs,
    values s = Some vs /\
    LinkedListCpp.insert v i s = Ok (true, s') /\
    values s' = Some (take (Z.to_nat i) vs ++ v :: drop (Z.to_nat i) vs) /\
    length s' = (length s + 1)%Z /\
    well_formed s' = true.
Proof.
  intros [ns H]%well_formed_repr Hi.
  destruct (cpp_insert_repr s ns v i H Hi) as (s' & Hrun & H' & _).
  exists s', (ns.*2). split_and!; try done.
  - by apply repr_values.
  - rewrite (repr_values _ _ H').
    by rewrite fmap_app, fmap_cons, fmap_take, fmap_drop.
  - rewrite (repr_length _ _ H'), (repr_length _ _ H).
    rewrite length_app, length_take. simpl. rewrite length_drop.
    pose proof (repr_length _ _ H). lia.
  - by eapply repr_well_formed.
Qed.

Lemma cpp_insert_places_value_witness :
  well_formed two_nodes = true /\ (0 <= 1 <= length two_nodes)%Z /\
  exists s',
    LinkedListCpp.insert 99 1 two_nodes = Ok (true, s') /\
    values s' = Some [20%Z; 99%Z; 10%Z] /\ length s' = 3%Z.
Proof.
  assert (W : well_formed two_nodes = true) by (vm_compute; reflexivity).
  assert (R : (0 <= 1 <= length two_nodes)%Z) by (simpl; lia).
  split; [exact W|]. split; [exact R|].
  destruct (cpp_insert_places_value two_nodes 99 1 W R)
    as (s' & vs & Hv & Hrun & Hv' & Hl & _).
  assert (Hvs : vs = [20%Z; 10%Z]) by (vm_compute in Hv; congruence).
  subst vs. exists s'. done.
Defined.

(** In the header-based class deletePosition(i) with 0 <= i < length returns
    true and removes exactly the value at position i; length shrinks by one
    and the list stays well formed. *)
Theorem cpp_deletePosition_removes_value s i :
  well_formed s = true -> (0 <= i < length s)%Z ->
  exists s' vs,
    values s = Some vs /\
    LinkedListCpp.deletePosition i s = Ok (true, s') /\
    values s' = Some (delete (Z.to_nat i) vs) /\
    length s' = (length s - 1)%Z /\
    well_formed s' = true.
Proof.
  intros [ns H]%well_formed_repr Hi.
  destruct (cpp_deletePosition_repr s ns i H Hi) as (s' & Hrun & H' & _).
  exists s', (ns.*2). split_and!; try done.
  - by apply repr_values.
  - rewrite (repr_values _ _ H').
    by rewrite delete_take_drop, fmap_app, fmap_take, fmap_drop.
  - rewrite (repr_length _ _ H'), (repr_length _ _ H).
    rewrite length_app, length_take, length_drop.
    pose proof (repr_length _ _ H). lia.
  - by eapply repr_well_formed.
Qed.

Lemma cpp_deletePosition_removes_value_witness :
  well_formed two_nodes = true /\ (0 <= 1 < length two_nodes)%Z /\
  exists s',
    LinkedListCpp.deletePosition 1 two_nodes = Ok (true, s') /\
    values s' = Some [20%Z] /\ length s' = 1%Z.
Proof.
  assert (W : well_formed two_nodes = true) by (vm_compute; reflexivity).
  assert (R : (0 <= 1 < length two_nodes)%Z) by (simpl; lia).
  split; [exact W|]. split; [exact R|].
  destruct (cpp_deletePosition_removes_value two_nodes 1 W R)
    as (s' & vs & Hv & Hrun & Hv' & Hl & _).
  assert (Hvs : vs = [20%Z; 10%Z]) by (vm_compute in Hv; congruence).
  subst vs. exists s'. done.
Defined.

Lemma cpp_deletePosition_last_witness :
  well_formed two_nodes = true /\ (length two_nodes > 0)%Z /\
  exists s1 s2,
    LinkedListCpp.deletePosition (length two_nodes - 1) two_nodes = Ok (true, s1) /\
    LinkedListCpp.deleteLast two_nodes = Ok (tt, s2) /\
    values s1 = values s2 /\ tail s1 = tail s2.
Proof.
  assert (W : well_formed two_nodes = true) by (vm_compute; reflexivity).
  assert (R : (length two_nodes > 0)%Z) by (simpl; lia).
  split; [exact W|]. split; [exact R|].
  destruct (cpp_deletePosition_last two_nodes W R)
    as (s1 & s2 & H1 & H2 & Hv & _ & _ & Ht & _).
  exists s1, s2. done.
Defined.

Lemma cpp_reverse_involution_witness :
  well_formed two_nodes = true /\
  exists s1 s2,
    LinkedListCpp.reverseLinkedList two_nodes = Ok (tt, s1) /\
    LinkedListCpp.reverseLinkedList s1 = Ok (tt, s2) /\
    values s2 = values two_nodes /\ length s2 = length two_nodes.
Proof.
  assert (W : well_formed two_nodes = true) by (vm_compute; reflexivity).
  split; [exact W|].
  destruct (cpp_reverse_involution two_nodes W)
    as (s1 & s2 & H1 & H2 & Hv & Hl & _).
  exists s1, s2. done.
Defined.

(** In the header-based class reverseLinkedList runs without a fault on
    every well-formed list, the empty one included: the values come out in
    reverse order, the old tail is the new head, the old head is the new
    tail, length is unchanged and the list stays well formed; on a list of
    at most one node the whole state is left exactly as it was. *)
Theorem cpp_reverse_behaviour s :
  well_formed s = true ->
  exists s' vs,
    LinkedListCpp.reverseLinkedList s = Ok (tt, s') /\
    values s = Some vs /\ values s' = Some (reverse vs) /\
    head s' = tail s /\ tail s' = head s /\ length s' = length s /\
    well_formed s' = true /\
    ((length s <= 1)%Z -> s' = s).
Proof.
  intros Hwf. pose proof Hwf as [ns H]%well_formed_repr.
  destruct (cpp_reverse_repr s ns H) as (s' & Hr & H' & _).
  destruct (cpp_reverse_swaps s Hwf) as (s0 & vs & Hr0 & Hv & Hv' & Hh & Ht & Hl).
  assert (s0 = s') by congruence. subst s0.
  exists s', vs. split_and!; try done.
  - by eapply repr_well_formed.
  - intros Hle. pose proof (cpp_reverse_short s Hwf Hle). congruence.
Qed.

Lemma cpp_reverse_behaviour_witness :
  well_formed two_nodes = true /\
  exists s',
    LinkedListCpp.reverseLinkedList two_nodes = Ok (tt, s') /\
    values s' = Some [10%Z; 20%Z] /\
    head s' = Some 1%nat /\ tail s' = Some 0%nat.
Proof.
  assert (W : well_formed two_nodes = true) by (vm_compute; reflexivity).
  split; [exact W|].
  destruct (cpp_reverse_behaviour two_nodes W)
    as (s' & vs & Hr & Hv & Hv' & Hh & Ht & _).
  assert (Hvs : vs = [20%Z; 10%Z]) by (vm_compute in Hv; congruence).
  subst vs. exists s'. done.
Defined.

(** In the header-based class, on every well-formed list, insert at index
    length is the call of append and insert at index 0 is the call of
    prepend, each followed by returning true. *)
Theorem cpp_insert_at_ends s v :
  well_formed s = true ->
  LinkedListCpp.insert v (length s) s
    = (LinkedListCpp.append v;; mret true) s /\
  LinkedListCpp.insert v 0 s
    = (LinkedListCpp.prepend v;; mret true) s.
Proof.
  intros Hwf. split; [by apply cpp_insert_length_append|].
  pose proof Hwf as [ns H]%well_formed_repr.
  pose proof (repr_length_nonneg _ _ H) as Hnn.
  unfold LinkedListCpp.insert. unfold_m.
  destruct (0 >? length s)%Z eqn:E; [|done].
  rewrite Z.gtb_ltb in E. apply Z.ltb_lt in E. lia.
Qed.

Lemma cpp_insert_at_ends_witness :
  well_formed two_nodes = true /\
  LinkedListCpp.insert 5 2 two_nodes
    = (LinkedListCpp.append 5;; mret true) two_nodes /\
  LinkedListCpp.insert 5 0 two_nodes
    = (LinkedListCpp.prepend 5;; mret true) two_nodes.
Proof.
  assert (W : well_formed two_nodes = true) by (vm_compute; reflexivity).
  split; [exact W|]. exact (cpp_insert_at_ends two_nodes 5 W).
Defined.

(** In the header-based class append(v) followed by deleteLast(), and
    prepend(v) followed by deleteFirst(), give back the list as it was: the
    same nodes and values, length, head and tail. *)
Theorem cpp_add_then_delete_restores s v :
  well_formed s = true ->
  (exists s1 s2,
     LinkedListCpp.append v s = Ok (tt, s1) /\
     LinkedListCpp.deleteLast s1 = Ok (tt, s2) /\
     nodes s2 = nodes s /\ values s2 = values s /\ length s2 = length s /\
     head s2 = head s /\ tail s2 = tail s) /\
  (exists s1 s2,
     LinkedListCpp.prepend v s = Ok (tt, s1) /\
     LinkedListCpp.deleteFirst s1 = Ok (tt, s2) /\
     nodes s2 = nodes s /\ values s2 = values s /\ length s2 = length s /\
     head s2 = head s /\ tail s2 = tail s).
Proof.
  intros [ns H]%well_formed_repr. split.
  - destruct (cpp_append_repr s ns v H) as (s1 & Hr1 & H1 & _).
    destruct (cpp_deleteLast_repr s1 _ ns H1) as (s2 & Hr2 & H2 & _).
    exists s1, s2. by destruct (repr_same_view s2 s ns H2 H) as (? & ? & ? & ? & ?).
  - destruct (cpp_prepend_repr s ns v H) as (s1 & Hr1 & H1 & _).
    destruct (cpp_deleteFirst_repr s1 _ ns H1) as (s2 & Hr2 & H2 & _).
    exists s1, s2. by destruct (repr_same_view s2 s ns H2 H) as (? & ? & ? & ? & ?).
Qed.

Lemma cpp_add_then_delete_restores_witness :
  well_formed two_nodes = true /\
  exists s1 s2,
    LinkedListCpp.append 30 two_nodes = Ok (tt, s1) /\
    LinkedListCpp.deleteLast s1 = Ok (tt, s2) /\
    values s2 = values two_nodes /\ tail s2 = tail two_nodes.
Proof.
  assert (W : well_formed two_nodes = true) by (vm_compute; reflexivity).
  split; [exact W|].
  destruct (cpp_add_then_delete_restores two_nodes 30 W)
    as [(s1 & s2 & H1 & H2 & _ & Hv & _ & _ & Ht) _].
  exists s1, s2. done.
Defined.

(** In the header-based class append(v) puts v after the last value and
    makes its node the tail; prepend(v) puts v before the first value and
    makes its node the head; each adds one to length and keeps the list well
    formed. *)
Theorem cpp_append_prepend_values s v :
  well_formed s = true ->
  exists vs,
    values s = Some vs /\
    (exists s1,
       LinkedListCpp.append v s = Ok (tt, s1) /\
       values s1 = Some (vs ++ [v]) /\ get_value (tail s1) s1 = Ok (v, s1) /\
       length s1 = (length s + 1)%Z /\ well_formed s1 = true) /\
    (exists s1,
       LinkedListCpp.prepend v s = Ok (tt, s1) /\
       values s1 = Some (v :: vs) /\ get_value (head s1) s1 = Ok (v, s1) /\
       length s1 = (length s + 1)%Z /\ well_formed s1 = true).
Proof.
  intros [ns H]%well_formed_repr. exists (ns.*2).
  pose proof (repr_length _ _ H) as Hlen.
  split; [by apply repr_values|]. split.
  - destruct (cpp_append_repr s ns v H) as (s1 & Hr1 & H1 & _).
    exists s1. split_and!; try done.
    + rewrite (repr_values _ _ H1). by rewrite fmap_app.
    + by eapply repr_tail_value.
    + rewrite (repr_length _ _ H1), length_app. simpl. lia.
    + by eapply repr_well_formed.
  - destruct (cpp_prepend_repr s ns v H) as (s1 & Hr1 & H1 & _).
    exists s1. split_and!; try done.
    + by rewrite (repr_values _ _ H1).
    + by eapply repr_head_value.
    + rewrite (repr_length _ _ H1). simpl. lia.
    + by eapply repr_well_formed.
Qed.

Lemma cpp_append_prepend_values_witness :
  well_formed two_nodes = true /\
  (exists s1, LinkedListCpp.append 30 two_nodes = Ok (tt, s1) /\
              values s1 = Some [20%Z; 10%Z; 30%Z]) /\
  (exists s1, LinkedListCpp.prepend 5 two_nodes = Ok (tt, s1) /\
              values s1 = Some [5%Z; 20%Z; 10%Z]).
Proof.
  assert (W : well_formed two_nodes = true) by (vm_compute; reflexivity).
  split; [exact W|].
  destruct (cpp_append_prepend_values two_nodes 30 W)
    as (vs & Hv & (s1 & Hr1 & Hv1 & _) & _).
  destruct (cpp_append_prepend_values two_nodes 5 W)
    as (vs' & Hv' & _ & (s2 & Hr2 & Hv2 & _)).
  assert (Hvs : vs = [20%Z; 10%Z]) by (vm_compute in Hv; congruence).
  assert (Hvs' : vs' = [20%Z; 10%Z]) by (vm_compute in Hv'; congruence).
  subst vs vs'. split; [by exists s1|by exists s2].
Defined.

(** In the header-based class, on a non-empty well-formed list, deleteFirst
    removes the first value and deleteLast removes the last one; the other
    values keep their order, length shrinks by one and the list stays well
    formed (after the last node is gone, head and tail are nullptr). *)
Theorem cpp_delete_ends s :
  well_formed s = true -> head s <> None ->
  exists v vs front vn,
    values s = Some (v :: vs) /\ v :: vs = front ++ [vn] /\
    (exists s1,
       LinkedListCpp.deleteFirst s = Ok (tt, s1) /\ values s1 = Some vs /\
       length s1 = (length s - 1)%Z /\ well_formed s1 = true) /\
    (exists s2,
       LinkedListCpp.deleteLast s = Ok (tt, s2) /\ values s2 = Some front /\
       length s2 = (length s - 1)%Z /\ well_formed s2 = true).
Proof.
  intros [ns H]%well_formed_repr Hne.
  pose proof (repr_length _ _ H) as Hlen.
  destruct ns as [|[l0 v0] ns]; [exfalso; apply Hne; by apply (repr_empty_iff _ _ H)|].
  destruct (exists_last (l := (l0, v0) :: ns)) as (fr & [lt vt] & Heq); [done|].
  exists v0, (ns.*2), (fr.*2), vt. split_and!.
  - by rewrite (repr_values _ _ H).
  - pose proof (f_equal (fmap snd) Heq) as Hv. rewrite fmap_app in Hv. exact Hv.
  - destruct (cpp_deleteFirst_repr s _ ns H) as (s1 & Hr1 & H1 & _).
    exists s1. split_and!; try done.
    + by apply repr_values.
    + rewrite (repr_length _ _ H1). simpl in Hlen. lia.
    + by eapply repr_well_formed.
  - rewrite Heq in H.
    destruct (cpp_deleteLast_repr s _ fr H) as (s2 & Hr2 & H2 & _).
    exists s2. split_and!; try done.
    + by apply repr_values.
    + rewrite (repr_length _ _ H2), Hlen, Heq, length_app. simpl. lia.
    + by eapply repr_well_formed.
Qed.

Lemma cpp_delete_ends_witness :
  well_formed two_nodes = true /\ head two_nodes <> None /\
  (exists s1, LinkedListCpp.deleteFirst two_nodes = Ok (tt, s1) /\
              values s1 = Some [10%Z]) /\
  (exists s2, LinkedListCpp.deleteLast two_nodes = Ok (tt, s2) /\
              values s2 = Some [20%Z]).
Proof.
  assert (W : well_formed two_nodes = true) by (vm_compute; reflexivity).
  assert (N : head two_nodes <> None) by done.
  split; [exact W|]. split; [exact N|].
  destruct (cpp_delete_ends two_nodes W N)
    as (v & vs & front & vn & Hv & Heq & (s1 & Hr1 & Hv1 & _) & (s2 & Hr2 & Hv2 & _)).
  assert (Hvs : v = 20%Z /\ vs = [10%Z]) by (vm_compute in Hv; split; congruence).
  destruct Hvs as [-> ->].
  assert (Hfront : front = [20%Z]).
  { destruct front as [|a [|b [|c front]]]; simplify_eq/=; try done;
      destruct front; done. }
  subst front. split; [by exists s1|by exists s2].
Defined.

(** ** Memory accounting of the header-based class *)

Lemma size_pos (m : gmap nat Node) i n : m !! i = Some n -> (0 < size m)%nat.
Proof.
  intros H. destruct (size m) eqn:E; [|lia].
  apply map_size_empty_iff in E. subst m. by rewrite lookup_empty in H.
Qed.

Lemma advance_state n p s q s' : advance n p s = Ok (q, s') -> s' = s.
Proof.
  revert p. induction n as [|n IH]; intros p; simpl.
  - unfold_m. congruence.
  - unfold_m. repeat case_match; intros; simplify_eq. eauto.
Qed.

Lemma find_before_state fuel t p s q s' :
  find_before fuel t p s = Ok (q, s') -> s' = s.
Proof.
  revert p. induction fuel as [|f IH]; intros p; simpl.
  - unfold_m. congruence.
  - unfold_m. repeat case_match; intros; simplify_eq; eauto.
Qed.

Ltac size_tac :=
  cbn [cells brk head tail length console value next] in *;
  unfold loc in *;
  repeat match goal with
  | |- context [size (<[?i := ?x]> ?m)] => rewrite (map_size_insert i x m)
  | |- context [size (delete ?i ?m)] => rewrite (map_size_delete i m)
  | H : ?m !! ?i = _ |- context [?m !! ?i] => rewrite H
  end;
  repeat match goal with
  | H : ?m !! ?i = Some ?n |- _ =>
      lazymatch goal with
      | _ : (0 < size m)%nat |- _ => fail
      | _ => pose proof (size_pos m i n H)
      end
  end;
  cbn [id].

Ltac loop_states :=
  repeat match goal with
  | H : find_before _ _ _ _ = Ok (_, ?s1) |- _ =>
      apply find_before_state in H; subst s1
  | H : advance _ _ _ = Ok (_, ?s1) |- _ =>
      apply advance_state in H; subst s1
  end.

Ltac surplus_tac :=
  repeat case_match; intros; simplify_eq; loop_states; size_tac; try lia.

Section CppAccounting.

Import LinkedListCpp.
Implicit Types (s : state) (ns : list (loc * Z)).

Lemma cpp_append_surplus v s s' :
  cells s !! brk s = None ->
  append v s = Ok (tt, s') -> surplus s' = surplus s.
Proof.
  intros Hfresh. destruct s as [m b h t len con]. simpl in Hfresh.
  unfold append, surplus. unfold_m. surplus_tac.
Qed.

Lemma cpp_prepend_surplus v s s' :
  cells s !! brk s = None ->
  prepend v s = Ok (tt, s') -> surplus s' = surplus s.
Proof.
  intros Hfresh. destruct s as [m b h t len con]. simpl in Hfresh.
  unfold prepend, surplus. unfold_m. surplus_tac.
Qed.

Lemma cpp_deleteFirst_surplus s s' :
  deleteFirst s = Ok (tt, s') -> surplus s' = surplus s.
Proof.
  destruct s as [m b h t len con].
  unfold deleteFirst, surplus. unfold_m. surplus_tac.
Qed.

Lemma cpp_deleteLast_surplus s s' :
  (head s <> None -> tail s <> None) ->
  deleteLast s = Ok (tt, s') -> surplus s' = surplus s.
Proof.
  destruct s as [m b h t len con]. intros Ht. simpl in Ht.
  unfold deleteLast, surplus. unfold_m. surplus_tac.
  by destruct Ht.
Qed.

Lemma cpp_insert_surplus v i s s' r :
  cells s !! brk s = None ->
  insert v i s = Ok (r, s') -> surplus s' = surplus s.
Proof.
  intros Hfresh. destruct s as [m b h t len con]. simpl in Hfresh.
  unfold insert, prepend, append, surplus. unfold_m. surplus_tac.
Qed.

Lemma cpp_deletePosition_surplus i s s' r :
  deletePosition i s = Ok (r, s') -> surplus s' = surplus s.
Proof.
  destruct s as [m b h t len con].
  unfold deletePosition, deleteFirst, surplus. unfold_m. surplus_tac.
Qed.

Lemma cpp_reverse_loop_surplus fuel :
  forall prev curr s r s',
    reverse_loop fuel prev curr s = Ok (r, s') ->
    size (cells s') = size (cells s) /\ length s' = length s.
Proof.
  induction fuel as [|f IH]; intros prev curr s r s'; destruct curr as [l|];
    simpl; unfold_m; try congruence.
  - intros [= <- <-]. done.
  - destruct s as [m b h t len con]. psimpl.
    destruct (m !! l) as [n|] eqn:Hl; [|done]. psimpl. rewrite Hl.
    intros H. apply IH in H as [Hs Hlen]. rewrite Hs, Hlen. psimpl.
    split; [|done]. rewrite map_size_insert. unfold loc in *. by rewrite Hl.
  - intros [= <- <-]. done.
Qed.

Lemma cpp_reverse_surplus s s' :
  reverseLinkedList s = Ok (tt, s') -> surplus s' = surplus s.
Proof.
  destruct s as [m b h t len con].
  unfold reverseLinkedList, surplus. unfold_m.
  destruct (reverse_loop _ _ _ _) as [[r s1]| |] eqn:Hloop; try done.
  apply cpp_reverse_loop_surplus in Hloop as [Hs Hlen].
  intros [= <-]. psimpl. simpl in Hs, Hlen. rewrite Hs, Hlen. done.
Qed.

Lemma repr_tail_nonnull s ns : repr s ns -> head s <> None -> tail s <> None.
Proof.
  intros H Hne. destruct ns as [|x ns _] using rev_ind.
  - exfalso. apply Hne. by apply (repr_empty_iff _ _ H).
  - destruct H as (_ & -> & _). destruct x. by rewrite last_fst_snoc.
Qed.

Lemma cpp_exec_surplus o s s' :
  well_formed s = true ->
  exec o s = Ok (tt, s') -> surplus s' = surplus s.
Proof.
  intros [ns H]%well_formed_repr.
  pose proof (repr_fresh _ _ H) as Hfresh.
  destruct o as [v|v|v i| | |i|]; unfold exec.
  - by apply cpp_append_surplus.
  - by apply cpp_prepend_surplus.
  - unfold_m. destruct (insert v i s) as [[r s1]| |] eqn:E; try done.
    intros [= <-]. by eapply cpp_insert_surplus.
  - apply cpp_deleteFirst_surplus.
  - apply cpp_deleteLast_surplus. by eapply repr_tail_nonnull.
  - unfold_m. destruct (deletePosition i s) as [[r s1]| |] eqn:E; try done.
    intros [= <-]. by eapply cpp_deletePosition_surplus.
  - apply cpp_reverse_surplus.
Qed.

Lemma cpp_run_surplus ops s :
  well_formed s = true ->
  exists s', run ops s = Ok s' /\ well_formed s' = true /\
             surplus s' = surplus s.
Proof.
  revert s. induction ops as [|o ops IH]; intros s Hwf.
  - exists s. done.
  - destruct (cpp_exec_well_formed o s Hwf) as (s1 & Hrun & Hwf1).
    pose proof (cpp_exec_surplus o s s1 Hwf Hrun) as Hs1.
    destruct (IH s1 Hwf1) as (s' & Hrun' & Hwf' & Hs').
    exists s'. split_and!; [|done|congruence].
    unfold run in *. simpl. by rewrite Hrun.
Qed.

(** with no surplus, the allocated nodes are the nodes of the chain *)
Lemma repr_allocated_reachable s ns :
  repr s ns -> surplus s = 0%Z ->
  forall l, is_Some (cells s !! l) -> l ∈ ns.*1.
Proof.
  intros H Hs l [n Hl]. pose proof (repr_NoDup _ _ H) as Hnd.
  pose proof (repr_length _ _ H) as Hlen.
  destruct H as (Hseg & _).
  assert (Hsub : ns.*1 ⊆+ (map_to_list (cells s)).*1).
  { apply NoDup_submseteq; [done|]. intros k Hin.
    destruct (lseg_lookup _ _ _ _ _ Hseg Hin) as [nk Hk].
    apply list_elem_of_fmap. exists (k, nk). split; [done|].
    by apply elem_of_map_to_list. }
  apply submseteq_length_Permutation in Hsub.
  - rewrite Hsub. apply list_elem_of_fmap. exists (l, n). split; [done|].
    by apply elem_of_map_to_list.
  - rewrite !length_fmap, length_map_to_list. unfold surplus in Hs.
    unfold loc in *. lia.
Qed.

Lemma cpp_destroy_loop_lseg ns :
  forall m cur fuel b h t len con,
    lseg m cur ns None -> (List.length ns <= fuel)%nat ->
    exists m',
      destroy_loop fuel cur (mkState m b h t len con)
        = Ok (tt, mkState m' b h t len con) /\
      (forall l, l ∈ ns.*1 -> m' !! l = None) /\
      (forall l, l ∉ ns.*1 -> m' !! l = m !! l).
Proof.
  induction ns as [|[l v] ns IH]; intros m cur fuel b h t len con Hseg Hf.
  - apply lseg_nil in Hseg. subst cur. exists m. split_and!.
    + by destruct fuel.
    + intros l Hl. inversion Hl.
    + done.
  - pose proof (lseg_NoDup _ _ _ Hseg) as Hnd.
    rewrite fmap_cons in Hnd. apply NoDup_cons in Hnd as [Hnin _].
    apply lseg_cons in Hseg as (-> & nx & Hl & Hseg).
    destruct fuel as [|f]; [simpl in Hf; lia|]. simpl in Hf.
    destruct (IH (delete l m) nx f b h t len con) as (m' & Hrun & Hin & Hout).
    + by apply lseg_delete_ne.
    + lia.
    + exists m'. split_and!.
      * simpl. unfold_m. rewrite Hl. psimpl. rewrite Hl. psimpl. exact Hrun.
      * intros k Hk. rewrite fmap_cons in Hk.
        apply elem_of_cons in Hk as [->|Hk]; [|by apply Hin].
        rewrite Hout by done. apply lookup_delete_eq.
      * intros k Hk. rewrite fmap_cons in Hk.
        apply not_elem_of_cons in Hk as [Hne Hk].
        rewrite Hout by done. by apply lookup_delete_ne.
Qed.

End CppAccounting.

(** The destructor of the header-based class, on every well-formed list,
    runs without a fault, deletes every node of the list exactly once,
    touches no other node, and leaves head and tail nullptr and length 0. *)
Theorem cpp_destructor_frees_list s :
  well_formed s = true ->
  exists s' ns,
    nodes s = Some ns /\
    LinkedListCpp.destructor s = Ok (tt, s') /\
    head s' = None /\ tail s' = None /\ length s' = 0%Z /\
    (forall l, l ∈ ns.*1 -> cells s' !! l = None) /\
    (forall l, l ∉ ns.*1 -> cells s' !! l = cells s !! l) /\
    well_formed s' = true.
Proof.
  intros [ns H]%well_formed_repr.
  pose proof (repr_nodes _ _ H) as Hn.
  destruct H as (Hseg & Ht & Hlen & Hb).
  destruct s as [m b h t len con]. cbn [cells brk head tail length] in *.
  pose proof (lseg_length _ _ _ Hseg) as Hsize.
  destruct (cpp_destroy_loop_lseg ns m h (S (size m)) b h t len con Hseg)
    as (m' & Hrun & Hin & Hout); [lia|].
  unfold LinkedListCpp.destructor. unfold_m. rewrite Hrun. psimpl.
  eexists. exists ns. split; [done|]. split; [reflexivity|].
  psimpl. split_and!; try done.
  apply (repr_well_formed _ []). unfold repr. psimpl. split_and!; try done.
  intros l n Hl. destruct (decide (l ∈ ns.*1)) as [Hi|Hi].
  - by rewrite Hin in Hl.
  - rewrite Hout in Hl by done. eauto.
Qed.

Lemma cpp_destructor_frees_list_witness :
  well_formed two_nodes = true /\
  exists s',
    LinkedListCpp.destructor two_nodes = Ok (tt, s') /\
    head s' = None /\ length s' = 0%Z /\
    cells s' !! 0%nat = None /\ cells s' !! 1%nat = None.
Proof.
  assert (W : well_formed two_nodes = true) by (vm_compute; reflexivity).
  split; [exact W|].
  destruct (cpp_destructor_frees_list two_nodes W)
    as (s' & ns & Hn & Hrun & Hh & _ & Hl & Hin & _).
  assert (Hns : ns = [(0%nat, 20%Z); (1%nat, 10%Z)])
    by (vm_compute in Hn; congruence).
  subst ns. exists s'. split_and!; try done; apply Hin; set_solver.
Defined.

(** The header-based class does not leak: after every sequence of calls on a
    freshly constructed list, every allocated node is reachable from head,
    and the destructor then leaves no node allocated. *)
Theorem cpp_no_leak v ops :
  exists s ns s',
    LinkedListCpp.run ops (LinkedListCpp.create v) = Ok s /\
    nodes s = Some ns /\
    (forall l, is_Some (cells s !! l) <-> l ∈ ns.*1) /\
    Z.of_nat (size (cells s)) = length s /\
    LinkedListCpp.destructor s = Ok (tt, s') /\
    cells s' = ∅.
Proof.
  destruct (cpp_run_surplus ops _ (cpp_create_well_formed v))
    as (s & Hrun & Hwf & Hs).
  assert (Hs0 : surplus s = 0%Z).
  { rewrite Hs. unfold surplus, LinkedListCpp.create. psimpl.
    by rewrite map_size_singleton. }
  pose proof Hwf as [ns H]%well_formed_repr.
  destruct (cpp_destructor_frees_list s Hwf)
    as (s' & ns' & Hn & Hd & _ & _ & _ & Hin & Hout & _).
  assert (ns' = ns) by (rewrite (repr_nodes _ _ H) in Hn; congruence).
  subst ns'. exists s, ns, s'. split_and!; try done.
  - intros l. split; [by apply repr_allocated_reachable|].
    intros Hl. destruct H as (Hseg & _). by eapply lseg_lookup.
  - unfold surplus in Hs0. lia.
  - apply map_empty. intros l. destruct (decide (l ∈ ns.*1)) as [Hi|Hi].
    + by apply Hin.
    + rewrite Hout by done. destruct (cells s !! l) as [n|] eqn:E; [|done].
      exfalso. apply Hi. apply (repr_allocated_reachable _ _ H Hs0). eauto.
Qed.

(** ** printList *)







(** ** The JavaScript class: reversal, emptiness, adding and deleting *)

Section JsMore.

Import LinkedListJs.
Implicit Types (s : state) (ns : list (loc * Z)).

Lemma js_append_repr s ns v :
  repr s ns ->
  exists s', append v s = Ok (tt, s') /\ repr s' (ns ++ [(brk s, v)]).
Proof.
  intros H. destruct (cpp_append_repr s ns v H) as (s' & Hr & H' & _).
  exists s'. done.
Qed.

Lemma js_prepend_repr s ns v :
  repr s ns ->
  exists s', prepend v s = Ok (tt, s') /\ repr s' ((brk s, v) :: ns).
Proof.
  intros H. destruct (cpp_prepend_repr s ns v H) as (s' & Hr & H' & _).
  exists s'. done.
Qed.

Lemma js_reverseOptimal_repr s ns :
  repr s ns ->
  exists s', reverseLinkedListOptimal s = Ok (head s', s') /\
             repr s' (reverse ns).
Proof.
  intros H. pose proof (repr_NoDup _ _ H) as Hnd.
  pose proof (repr_head _ _ H) as Hh.
  destruct H as (Hseg & Ht & Hlen & Hb).
  destruct s as [m b h t len con]. cbn [cells brk head tail length] in *.
  pose proof (lseg_length _ _ _ Hseg) as Hsize.
  destruct (cpp_reverse_loop_lseg ns [] m None h (S (size m)) b h t len con)
    as (m' & prev' & Hrun & Hseg' & Hdom); try done.
  - by rewrite app_nil_r.
  - lia.
  - unfold reverseLinkedListOptimal. unfold_m.
    change (reverse_loop (S (size m)) None h)
      with (LinkedListCpp.reverse_loop (S (size m)) None h).
    rewrite Hrun. psimpl.
    exists (mkState m' b prev' h len con). split; [reflexivity|].
    rewrite app_nil_r in Hseg'.
    unfold repr. psimpl. split_and!; try done.
    + by rewrite fmap_reverse, last_reverse.
    + by rewrite length_reverse.
    + intros l n Hl. apply Hdom in Hl as [n' Hl]. eauto.
Qed.

Lemma js_push_loop_lseg ns :
  forall s temp fuel st,
    lseg (cells s) temp ns None -> (List.length ns <= fuel)%nat ->
    push_loop fuel temp st s = Ok (st ++ ns.*2, s).
Proof.
  induction ns as [|[l v] ns IH]; intros s temp fuel st Hseg Hf.
  - apply lseg_nil in Hseg. subst temp. simpl. rewrite app_nil_r.
    by destruct fuel.
  - apply lseg_cons in Hseg as (-> & nx & Hl & Hseg).
    destruct fuel as [|f]; [simpl in Hf; lia|]. simpl in Hf.
    simpl. unfold_m. rewrite Hl. psimpl. rewrite Hl. psimpl.
    rewrite (IH s nx f) by (done || lia).
    by rewrite <- app_assoc.
Qed.

(** the nodes [ns] with the values [ws] written into them, in order *)
Lemma js_pop_loop_lseg ns :
  forall ws m temp fuel st b h t len con,
    lseg m temp ns None -> List.length ws = List.length ns ->
    (List.length ns <= fuel)%nat ->
    exists m',
      pop_loop fuel temp (st ++ reverse ws) (mkState m b h t len con)
        = Ok (tt, mkState m' b h t len con) /\
      lseg m' temp (zip (ns.*1) ws) None /\
      (forall k, k ∉ ns.*1 -> m' !! k = m !! k) /\
      (forall k n, m' !! k = Some n -> is_Some (m !! k)).
Proof.
  induction ns as [|[l v] ns IH];
    intros ws m temp fuel st b h t len con Hseg Hlen Hf.
  - apply lseg_nil in Hseg. subst temp. exists m. split_and!.
    + by destruct fuel.
    + by apply lseg_nil.
    + done.
    + eauto.
  - pose proof (lseg_NoDup _ _ _ Hseg) as Hnd.
    rewrite fmap_cons in Hnd. apply NoDup_cons in Hnd as [Hnin _].
    apply lseg_cons in Hseg as (-> & nx & Hl & Hseg).
    destruct ws as [|w ws]; [simpl in Hlen; lia|]. simpl in Hlen.
    destruct fuel as [|f]; [simpl in Hf; lia|]. simpl in Hf.
    destruct (IH ws (<[l := mkNode w nx]> m) nx f st b h t len con)
      as (m' & Hrun & Hseg' & Hout & Hdom).
    + by apply lseg_insert_ne.
    + lia.
    + lia.
    + exists m'. split_and!.
      * simpl. unfold pop at 1. rewrite reverse_cons, app_assoc, last_snoc.
        rewrite removelast_last. unfold set_value. unfold_m. rewrite Hl. psimpl.
        rewrite lookup_insert_eq. psimpl. exact Hrun.
      * simpl. apply lseg_cons. split; [done|]. exists nx. split; [|done].
        rewrite Hout by done. apply lookup_insert_eq.
      * intros k Hk. rewrite fmap_cons in Hk.
        apply not_elem_of_cons in Hk as [Hne Hk].
        rewrite Hout by done. by apply lookup_insert_ne.
      * intros k n Hk. apply Hdom in Hk.
        destruct (decide (l = k)) as [<-|Hne]; [eauto|].
        by rewrite lookup_insert_ne in Hk.
Qed.

Lemma js_bruteforce_repr s ns :
  repr s ns ->
  exists s', reverseLinkedListBruteForce s = Ok (tt, s') /\
             repr s' (zip (ns.*1) (reverse (ns.*2))) /\
             head s' = head s /\ tail s' = tail s.
Proof.
  intros H. destruct H as (Hseg & Ht & Hlen & Hb).
  destruct s as [m b h t len con]. cbn [cells brk head tail length] in *.
  pose proof (lseg_length _ _ _ Hseg) as Hsize.
  destruct (js_pop_loop_lseg ns (reverse (ns.*2)) m h (S (size m)) []
              b h t len con Hseg) as (m' & Hrun & Hseg' & Hout & Hdom).
  { by rewrite length_reverse, length_fmap. }
  { lia. }
  rewrite reverse_involutive in Hrun. simpl in Hrun.
  unfold reverseLinkedListBruteForce. unfold_m.
  rewrite (js_push_loop_lseg ns (mkState m b h t len con) h (S (size m)) [])
    by (done || lia).
  psimpl. simpl. rewrite Hrun.
  eexists. split; [reflexivity|]. split; [|done].
  assert (Hfst : (zip (ns.*1) (reverse (ns.*2))).*1 = ns.*1).
  { apply fst_zip. rewrite length_reverse, !length_fmap. lia. }
  unfold repr. psimpl. split_and!; try done.
  - by rewrite Hfst.
  - rewrite length_zip_with, length_reverse, !length_fmap. lia.
  - intros l n Hl. apply Hdom in Hl as [n' Hl]. eauto.
Qed.

End JsMore.

(** reverseLinkedListOptimal of the JavaScript class, on every well-formed
    list, runs without a fault and returns the new head: the values come out
    in reverse order, the old tail node is the new head, the old head node
    is the new tail, length is unchanged and the list stays well formed. *)
Theorem js_reverseOptimal_reverses s :
  well_formed s = true ->
  exists s' vs,
    values s = Some vs /\
    LinkedListJs.reverseLinkedListOptimal s = Ok (head s', s') /\
    values s' = Some (reverse vs) /\
    head s' = tail s /\ tail s' = head s /\ length s' = length s /\
    well_formed s' = true.
Proof.
  intros [ns H]%well_formed_repr.
  destruct (js_reverseOptimal_repr s ns H) as (s' & Hr & H').
  exists s', (ns.*2). split_and!; try done.
  - by apply repr_values.
  - rewrite (repr_values _ _ H'). by rewrite fmap_reverse.
  - rewrite (repr_head _ _ H'). destruct H as (_ & -> & _).
    by rewrite fmap_reverse, head_reverse.
  - rewrite (repr_head _ _ H). destruct H' as (_ & -> & _).
    by rewrite fmap_reverse, last_reverse.
  - rewrite (repr_length _ _ H'), (repr_length _ _ H).
    by rewrite length_reverse.
  - by eapply repr_well_formed.
Qed.

Lemma js_reverseOptimal_reverses_witness :
  well_formed two_nodes = true /\
  exists s',
    LinkedListJs.reverseLinkedListOptimal two_nodes = Ok (Some 1%nat, s') /\
    values s' = Some [10%Z; 20%Z] /\ tail s' = Some 0%nat.
Proof.
  assert (W : well_formed two_nodes = true) by (vm_compute; reflexivity).
  split; [exact W|].
  destruct (js_reverseOptimal_reverses two_nodes W)
    as (s' & vs & Hv & Hr & Hv' & Hh & Ht & _).
  assert (Hvs : vs = [20%Z; 10%Z]) by (vm_compute in Hv; congruence).
  subst vs. exists s'. rewrite Hh in Hr. done.
Defined.

(** reverseLinkedListBruteForce of the JavaScript class, on every
    well-formed list, runs without a fault and reverses the values while
    every node stays where it is: the same nodes in the same order, the same
    head, tail and length, with the value sequence reversed. *)
Theorem js_bruteforce_reverses_values s :
  well_formed s = true ->
  exists s' ns ns',
    nodes s = Some ns /\
    LinkedListJs.reverseLinkedListBruteForce s = Ok (tt, s') /\
    nodes s' = Some ns' /\
    ns'.*1 = ns.*1 /\ ns'.*2 = reverse (ns.*2) /\
    head s' = head s /\ tail s' = tail s /\ length s' = length s /\
    well_formed s' = true.
Proof.
  intros [ns H]%well_formed_repr.
  destruct (js_bruteforce_repr s ns H) as (s' & Hr & H' & Hh & Ht).
  exists s', ns, (zip (ns.*1) (reverse (ns.*2))). split_and!; try done.
  - by apply repr_nodes.
  - by apply repr_nodes.
  - apply fst_zip. rewrite length_reverse, !length_fmap. lia.
  - apply snd_zip. rewrite length_reverse, !length_fmap. lia.
  - rewrite (repr_length _ _ H'), (repr_length _ _ H).
    rewrite length_zip_with, length_reverse, !length_fmap. lia.
  - by eapply repr_well_formed.
Qed.

Lemma js_bruteforce_reverses_values_witness :
  well_formed two_nodes = true /\
  exists s',
    LinkedListJs.reverseLinkedListBruteForce two_nodes = Ok (tt, s') /\
    nodes s' = Some [(0%nat, 10%Z); (1%nat, 20%Z)] /\
    head s' = Some 0%nat.
Proof.
  assert (W : well_formed two_nodes = true) by (vm_compute; reflexivity).
  split; [exact W|].
  destruct (js_bruteforce_reverses_values two_nodes W)
    as (s' & ns & ns' & Hn & Hr & Hn' & H1 & H2 & Hh & _).
  assert (Hns : ns = [(0%nat, 20%Z); (1%nat, 10%Z)])
    by (vm_compute in Hn; congruence).
  subst ns. simpl in H1. change (reverse _) with [10%Z; 20%Z] in H2.
  assert (Hns' : ns' = [(0%nat, 10%Z); (1%nat, 20%Z)]).
  { destruct ns' as [|[a x] [|[b y] [|c ns']]]; simplify_eq/=; done. }
  subst ns'. exists s'. done.
Defined.

(** The two reversals of the JavaScript class give the same value sequence
    on every well-formed list; they differ in the nodes: after the brute
    force one head is the node it was, after the optimal one head is the
    former tail node. *)
Theorem js_reversals_agree s :
  well_formed s = true ->
  exists s1 s2 r,
    LinkedListJs.reverseLinkedListBruteForce s = Ok (tt, s1) /\
    LinkedListJs.reverseLinkedListOptimal s = Ok (r, s2) /\
    values s1 = values s2 /\ length s1 = length s2 /\
    head s1 = head s /\ head s2 = tail s.
Proof.
  intros [ns H]%well_formed_repr.
  destruct (js_bruteforce_repr s ns H) as (s1 & Hr1 & H1 & Hh1 & Ht1).
  destruct (js_reverseOptimal_repr s ns H) as (s2 & Hr2 & H2).
  exists s1, s2, (head s2). split_and!; try done.
  - rewrite (repr_values _ _ H1), (repr_values _ _ H2).
    rewrite fmap_reverse. f_equal. apply snd_zip.
    rewrite length_reverse, !length_fmap. lia.
  - rewrite (repr_length _ _ H1), (repr_length _ _ H2).
    rewrite length_zip_with, !length_reverse, !length_fmap. lia.
  - rewrite (repr_head _ _ H2). destruct H as (_ & -> & _).
    by rewrite fmap_reverse, head_reverse.
Qed.

Lemma js_reversals_agree_witness :
  well_formed two_nodes = true /\
  exists s1 s2 r,
    LinkedListJs.reverseLinkedListBruteForce two_nodes = Ok (tt, s1) /\
    LinkedListJs.reverseLinkedListOptimal two_nodes = Ok (r, s2) /\
    values s1 = values s2 /\ head s1 = Some 0%nat /\ head s2 = Some 1%nat.
Proof.
  assert (W : well_formed two_nodes = true) by (vm_compute; reflexivity).
  split; [exact W|].
  destruct (js_reversals_agree two_nodes W)
    as (s1 & s2 & r & H1 & H2 & Hv & _ & Hh1 & Hh2).
  exists s1, s2, r. done.
Defined.

(** In the JavaScript class, on every well-formed list, isEmpty returns true
    exactly when the list has no node (head is null, no values), getLength
    returns the number of nodes reachable from head, and neither changes the
    state. *)
Theorem js_isEmpty_getLength s :
  well_formed s = true ->
  exists b,
    LinkedListJs.isEmpty s = Ok (b, s) /\
    (b = true <-> head s = None) /\
    (b = true <-> values s = Some []) /\
    LinkedListJs.getLength s = Ok (length s, s) /\
    reachable_count s = Some (length s).
Proof.
  intros [ns H]%well_formed_repr.
  pose proof (repr_length _ _ H) as Hlen.
  exists (length s =? 0)%Z. split_and!; try done.
  - rewrite Z.eqb_eq, (repr_empty_iff _ _ H).
    destruct ns; simpl in Hlen; split; intros; simplify_eq; lia || done.
  - rewrite Z.eqb_eq, (repr_values _ _ H).
    destruct ns; simpl in *; split; intros; simplify_eq; lia || done.
  - by eapply repr_reachable_count.
Qed.

Lemma js_isEmpty_getLength_witness :
  well_formed two_nodes = true /\ well_formed emptied = true /\
  LinkedListJs.isEmpty two_nodes = Ok (false, two_nodes) /\
  LinkedListJs.isEmpty emptied = Ok (true, emptied).
Proof.
  assert (W2 : well_formed two_nodes = true) by (vm_compute; reflexivity).
  assert (W0 : well_formed emptied = true) by (vm_compute; reflexivity).
  split; [exact W2|]. split; [exact W0|].
  destruct (js_isEmpty_getLength two_nodes W2) as (b2 & H2 & Hb2 & _).
  destruct (js_isEmpty_getLength emptied W0) as (b0 & H0 & Hb0 & _).
  destruct b2; [by apply proj1 in Hb2; specialize (Hb2 eq_refl)|].
  destruct b0; [done|]. apply proj2 in Hb0. by specialize (Hb0 eq_refl).
Defined.

(** In the JavaScript class, on every well-formed list, append(v) followed
    by deleteLast() returns v, and prepend(v) followed by deleteFirst()
    returns v; either way the list shows the same values, length, head and
    tail as before. *)
Theorem js_add_then_delete_returns_value s v :
  well_formed s = true ->
  (exists s1 s2,
     LinkedListJs.append v s = Ok (tt, s1) /\
     LinkedListJs.deleteLast s1 = Ok (Some v, s2) /\
     values s2 = values s /\ length s2 = length s /\
     head s2 = head s /\ tail s2 = tail s) /\
  (exists s1 s2,
     LinkedListJs.prepend v s = Ok (tt, s1) /\
     LinkedListJs.deleteFirst s1 = Ok (Some v, s2) /\
     values s2 = values s /\ length s2 = length s /\
     head s2 = head s /\ tail s2 = tail s).
Proof.
  intros [ns H]%well_formed_repr. split.
  - destruct (js_append_repr s ns v H) as (s1 & Hr1 & H1).
    destruct (js_deleteLast_repr s1 _ _ ns H1) as (s2 & Hr2 & H2 & _).
    exists s1, s2. by destruct (repr_same_view s2 s ns H2 H) as (? & ? & ? & ? & ?).
  - destruct (js_prepend_repr s ns v H) as (s1 & Hr1 & H1).
    destruct (js_deleteFirst_repr s1 _ _ ns H1) as (s2 & Hr2 & H2 & _).
    exists s1, s2. by destruct (repr_same_view s2 s ns H2 H) as (? & ? & ? & ? & ?).
Qed.

Lemma js_add_then_delete_returns_value_witness :
  well_formed two_nodes = true /\
  exists s1 s2,
    LinkedListJs.append 30 two_nodes = Ok (tt, s1) /\
    LinkedListJs.deleteLast s1 = Ok (Some 30%Z, s2) /\
    values s2 = values two_nodes.
Proof.
  assert (W : well_formed two_nodes = true) by (vm_compute; reflexivity).
  split; [exact W|].
  destruct (js_add_then_delete_returns_value two_nodes 30 W)
    as [(s1 & s2 & H1 & H2 & Hv & _) _].
  exists s1, s2. done.
Defined.

(** ** The single-file class where it works *)

Section InlineMore.

Import LinkedListInline.
Implicit Types (s : state) (ns : list (loc * Z)).

Lemma inline_insert_shift s ns v i :
  repr s ns -> head s <> None -> (0 <= i <= length s - 1)%Z ->
  insert v i s = LinkedListCpp.insert v (i + 1) s.
Proof.
  intros H Hne Hi. pose proof (repr_length_nonneg _ _ H) as Hnn.
  unfold insert, LinkedListCpp.insert. unfold_m.
  destruct (head s) as [l0|] eqn:Hh; [|done].
  destruct (i + 1 <? 0)%Z eqn:E1; [apply Z.ltb_lt in E1; lia|].
  destruct (i + 1 >? length s)%Z eqn:E2;
    [rewrite Z.gtb_ltb in E2; apply Z.ltb_lt in E2; lia|].
  destruct (i + 1 =? 0)%Z eqn:E3; [apply Z.eqb_eq in E3; lia|].
  cbn [orb].
  destruct (i =? length s - 1)%Z eqn:E4.
  - apply Z.eqb_eq in E4.
    destruct (i + 1 =? length s)%Z eqn:E5; [done|].
    apply Z.eqb_neq in E5. lia.
  - apply Z.eqb_neq in E4.
    destruct (i + 1 =? length s)%Z eqn:E5; [apply Z.eqb_eq in E5; lia|].
    rewrite Hh. by replace (i + 1 - 1)%Z with i by lia.
Qed.

Lemma inline_deletePosition_repr s ns i :
  repr s ns -> (0 <= i < length s - 1)%Z ->
  exists s', deletePosition i s = Ok (true, s') /\
             repr s' (take (Z.to_nat i) ns ++ drop (S (Z.to_nat i)) ns) /\
             console s' = console s.
Proof.
  intros H Hi. pose proof (repr_NoDup _ _ H) as Hnd.
  destruct H as (Hseg & Ht & Hlen & Hb).
  destruct s as [m b h t len con]. cbn [cells brk head tail length] in *.
  assert (Hh0 : exists l0, h = Some l0).
  { destruct ns as [|[l0 v0] ns]; [simpl in Hlen; lia|].
    apply lseg_cons in Hseg as (-> & _). eauto. }
  destruct Hh0 as [l0' ->].
  unfold deletePosition. unfold_m.
  destruct (i <? 0)%Z eqn:E1; [apply Z.ltb_lt in E1; lia|].
  destruct (i >=? len)%Z eqn:E2;
    [rewrite Z.geb_leb in E2; apply Z.leb_le in E2; lia|].
  cbn [orb]. destruct (i =? 0)%Z eqn:E3.
  - apply Z.eqb_eq in E3. subst i. simpl.
    destruct ns as [|[l0 v0] [|[l1 v1] ns]]; [simpl in Hlen; lia..|].
    apply lseg_cons in Hseg as ([= ->] & nx & Hl & Hseg).
    pose proof Hseg as (-> & _)%lseg_cons.
    rewrite !fmap_cons in Hnd. apply NoDup_cons in Hnd as [Hnin _].
    psimpl. rewrite Hl. psimpl. rewrite Hl. psimpl.
    eexists. split; [reflexivity|]. split; [|done].
    unfold repr. psimpl. split_and!.
    + by apply lseg_delete_ne.
    + rewrite Ht. by rewrite !fmap_cons.
    + simpl in *. lia.
    + by apply below_delete.
  - apply Z.eqb_neq in E3.
    assert (Hsplit : ns = take (Z.to_nat i) ns ++ drop (Z.to_nat i) ns)
      by by rewrite take_drop.
    assert (Hla : List.length (take (Z.to_nat i) ns) = Z.to_nat i)
      by (rewrite length_take; lia).
    assert (Hlb : List.length (drop (Z.to_nat i) ns)
                  = (List.length ns - Z.to_nat i)%nat) by by rewrite length_drop.
    assert (Hdd : drop (S (Z.to_nat i)) ns = drop 1 (drop (Z.to_nat i) ns)).
    { rewrite drop_drop. f_equal. lia. }
    rewrite Hdd. clear Hdd.
    destruct (take (Z.to_nat i) ns) as [|[lp vp] a _] using rev_ind;
      [simpl in Hla; lia|].
    destruct (drop (Z.to_nat i) ns) as [|[ld vd] [|[lz vz] bb]];
      [simpl in Hlb; lia..|].
    rewrite length_app in Hla. simpl in Hla. simpl.
    rewrite Hsplit in Hseg, Ht, Hnd, Hlen. clear Hsplit.
    rewrite <- app_assoc in Hseg, Hnd, Ht, Hlen. simpl in Hseg, Hnd, Ht, Hlen.
    apply lseg_app in Hseg as (r & Ha & Hrest).
    apply lseg_cons in Hrest as (-> & q0 & Hlp & Hrest).
    apply lseg_cons in Hrest as (-> & q & Hld & Hbb).
    rewrite fmap_app, !fmap_cons in Hnd.
    apply NoDup_app in Hnd as (_ & Hd1 & Hnd).
    apply NoDup_cons in Hnd as [Hd2 Hnd].
    apply NoDup_cons in Hnd as [Hd3 _].
    apply not_elem_of_cons in Hd2 as [Hne Hd2].
    assert (Hd4 : lp ∉ a.*1).
    { intros Hin. apply (Hd1 lp Hin), elem_of_cons. by left. }
    assert (Hd5 : ld ∉ a.*1).
    { intros Hin. apply (Hd1 ld Hin), elem_of_cons. right.
      apply elem_of_cons. by left. }
    psimpl. replace (Z.to_nat (i - 1)) with (List.length a) by lia.
    rewrite (advance_lseg (mkState m b (Some l0') t len con) (Some l0') (Some lp) a)
      by done.
    psimpl. rewrite Hlp. psimpl. rewrite Hld. psimpl. rewrite Hlp. psimpl.
    rewrite lookup_insert_ne by done. rewrite Hld. psimpl.
    eexists. split; [reflexivity|]. split; [|done].
    rewrite <- app_assoc. simpl.
    unfold repr. psimpl. split_and!.
    + apply lseg_app. exists (Some lp). split.
      * apply lseg_delete_ne; [done|]. by apply lseg_insert_ne.
      * apply lseg_cons. split; [done|]. exists q. split.
        -- rewrite lookup_delete_ne by done. apply lookup_insert_eq.
        -- apply lseg_delete_ne; [done|]. by apply lseg_insert_ne.
    + rewrite Ht. apply last_fst_remove_mid.
    + rewrite length_app in *. simpl in *. lia.
    + apply below_delete. apply (below_insert _ b); [done| |lia].
      by apply Hb in Hlp.
Qed.

End InlineMore.

(** reverseLinkedList of the single-file class, on every well-formed list
    with at least one node, runs without a fault: the values come out in
    reverse order, head and tail swap, length is unchanged and the list
    stays well formed. *)
Theorem inline_reverse_nonempty s :
  well_formed s = true -> head s <> None ->
  exists s' vs,
    values s = Some vs /\
    LinkedListInline.reverseLinkedList s = Ok (tt, s') /\
    values s' = Some (reverse vs) /\
    head s' = tail s /\ tail s' = head s /\ length s' = length s /\
    well_formed s' = true.
Proof.
  intros [ns H]%well_formed_repr Hne.
  assert (Hns : ns <> []).
  { intros ->. apply Hne. by apply (repr_empty_iff _ _ H). }
  destruct (inline_reverse_repr s ns H Hns) as (s' & Hr & H' & _).
  exists s', (ns.*2). split_and!; try done.
  - by apply repr_values.
  - rewrite (repr_values _ _ H'). by rewrite fmap_reverse.
  - rewrite (repr_head _ _ H'). destruct H as (_ & -> & _).
    by rewrite fmap_reverse, head_reverse.
  - rewrite (repr_head _ _ H). destruct H' as (_ & -> & _).
    by rewrite fmap_reverse, last_reverse.
  - rewrite (repr_length _ _ H'), (repr_length _ _ H).
    by rewrite length_reverse.
  - by eapply repr_well_formed.
Qed.

Lemma inline_reverse_nonempty_witness :
  well_formed two_nodes = true /\ head two_nodes <> None /\
  exists s',
    LinkedListInline.reverseLinkedList two_nodes = Ok (tt, s') /\
    values s' = Some [10%Z; 20%Z] /\ head s' = Some 1%nat.
Proof.
  assert (W : well_formed two_nodes = true) by (vm_compute; reflexivity).
  assert (N : head two_nodes <> None) by done.
  split; [exact W|]. split; [exact N|].
  destruct (inline_reverse_nonempty two_nodes W N)
    as (s' & vs & Hv & Hr & Hv' & Hh & _).
  assert (Hvs : vs = [20%Z; 10%Z]) by (vm_compute in Hv; congruence).
  subst vs. exists s'. done.
Defined.

(** In the single-file class, on a well-formed list with at least one node,
    insert(v, i) with 0 <= i <= length - 1 does exactly what the header-based
    insert(v, i + 1) does: it returns true with v at position i + 1, behind
    the value that was at position i, so v never becomes the first value. *)
Theorem inline_insert_lands_one_later s v i :
  well_formed s = true -> head s <> None -> (0 <= i <= length s - 1)%Z ->
  LinkedListInline.insert v i s = LinkedListCpp.insert v (i + 1) s /\
  exists s' vs,
    values s = Some vs /\
    LinkedListInline.insert v i s = Ok (true, s') /\
    values s' = Some (take (S (Z.to_nat i)) vs ++ v :: drop (S (Z.to_nat i)) vs) /\
    length s' = (length s + 1)%Z /\
    well_formed s' = true.
Proof.
  intros [ns H]%well_formed_repr Hne Hi.
  pose proof (inline_insert_shift s ns v i H Hne Hi) as Heq.
  split; [done|]. rewrite Heq.
  destruct (cpp_insert_repr s ns v (i + 1) H) as (s' & Hrun & H' & _); [lia|].
  replace (Z.to_nat (i + 1)) with (S (Z.to_nat i)) in H' by lia.
  exists s', (ns.*2). split_and!; try done.
  - by apply repr_values.
  - rewrite (repr_values _ _ H').
    by rewrite fmap_app, fmap_cons, fmap_take, fmap_drop.
  - rewrite (repr_length _ _ H'), (repr_length _ _ H).
    rewrite length_app, length_take, length_cons, length_drop.
    pose proof (repr_length _ _ H). lia.
  - by eapply repr_well_formed.
Qed.

Lemma inline_insert_lands_one_later_witness :
  well_formed two_nodes = true /\ head two_nodes <> None /\
  (0 <= 0 <= length two_nodes - 1)%Z /\
  exists s',
    LinkedListInline.insert 99 0 two_nodes = Ok (true, s') /\
    values s' = Some [20%Z; 99%Z; 10%Z].
Proof.
  assert (W : well_formed two_nodes = true) by (vm_compute; reflexivity).
  assert (N : head two_nodes <> None) by done.
  assert (R : (0 <= 0 <= length two_nodes - 1)%Z) by (simpl; lia).
  split; [exact W|]. split; [exact N|]. split; [exact R|].
  destruct (inline_insert_lands_one_later two_nodes 99 0 W N R)
    as (_ & s' & vs & Hv & Hr & Hv' & _).
  assert (Hvs : vs = [20%Z; 10%Z]) by (vm_compute in Hv; congruence).
  subst vs. exists s'. done.
Defined.

Lemma last_delete_before_last {A} (l : list A) i :
  (S i < List.length l)%nat -> last (take i l ++ drop (S i) l) = last l.
Proof.
  intros Hi. rewrite last_app.
  destruct (last (drop (S i) l)) as [x|] eqn:E.
  - transitivity (last (take (S i) l ++ drop (S i) l)).
    + by rewrite last_app, E.
    + by rewrite take_drop.
  - apply last_None in E. apply (f_equal List.length) in E.
    rewrite length_drop in E. simpl in E. lia.
Qed.

(** In the single-file class, on every well-formed list, deletePosition(i)
    for a position before the last one (0 <= i < length - 1) returns true,
    removes exactly the value at position i, prints nothing and leaves the
    list well formed, tail included. *)
Theorem inline_deletePosition_before_last s i :
  well_formed s = true -> (0 <= i < length s - 1)%Z ->
  exists s' vs,
    values s = Some vs /\
    LinkedListInline.deletePosition i s = Ok (true, s') /\
    values s' = Some (delete (Z.to_nat i) vs) /\
    length s' = (length s - 1)%Z /\ tail s' = tail s /\
    console s' = console s /\
    well_formed s' = true.
Proof.
  intros [ns H]%well_formed_repr Hi.
  destruct (inline_deletePosition_repr s ns i H Hi) as (s' & Hrun & H' & Hc).
  pose proof (repr_length _ _ H) as Hlen.
  exists s', (ns.*2). split_and!; try done.
  - by apply repr_values.
  - rewrite (repr_values _ _ H').
    by rewrite delete_take_drop, fmap_app, fmap_take, fmap_drop.
  - rewrite (repr_length _ _ H'), Hlen.
    rewrite length_app, length_take, length_drop. lia.
  - destruct H as (_ & -> & _), H' as (_ & -> & _).
    rewrite fmap_app, fmap_take, fmap_drop.
    apply last_delete_before_last. rewrite length_fmap. lia.
  - by eapply repr_well_formed.
Qed.

Lemma inline_deletePosition_before_last_witness :
  well_formed two_nodes = true /\ (0 <= 0 < length two_nodes - 1)%Z /\
  exists s',
    LinkedListInline.deletePosition 0 two_nodes = Ok (true, s') /\
    values s' = Some [10%Z] /\ tail s' = Some 1%nat.
Proof.
  assert (W : well_formed two_nodes = true) by (vm_compute; reflexivity).
  assert (R : (0 <= 0 < length two_nodes - 1)%Z) by (simpl; lia).
  split; [exact W|]. split; [exact R|].
  destruct (inline_deletePosition_before_last two_nodes 0 W R)
    as (s' & vs & Hv & Hr & Hv' & _ & Ht & _).
  assert (Hvs : vs = [20%Z; 10%Z]) by (vm_compute in Hv; congruence).
  subst vs. exists s'. done.
Defined.

(** In the single-file class deletePosition refuses by returning false,
    leaving the list as it was and writing one line: "Empty List" when head
    is nullptr (whatever the index), "Index out of bounds" when the list has
    a head and the index is negative or at least length. *)
Theorem inline_deletePosition_refusals s i :
  head s = None \/ (i < 0 \/ length s <= i)%Z ->
  LinkedListInline.deletePosition i s
    = Ok (false,
          with_line (if is_null (head s) then "Empty List"
                     else "Index out of bounds") s).
Proof.
  intros Hc. destruct s as [m b h t len con]. simpl in Hc.
  unfold LinkedListInline.deletePosition. unfold_m.
  destruct h as [l0|]; [|done].
  destruct Hc as [|Hi]; [done|]. psimpl.
  destruct (i <? 0)%Z eqn:E1; [reflexivity|]. apply Z.ltb_ge in E1.
  destruct (i >=? len)%Z eqn:E2; [reflexivity|].
  rewrite Z.geb_leb in E2. apply Z.leb_gt in E2. lia.
Qed.

Lemma inline_deletePosition_refusals_witness :
  (head emptied = None \/ (3 < 0 \/ length emptied <= 3)%Z) /\
  (head two_nodes = None \/ (7 < 0 \/ length two_nodes <= 7)%Z) /\
  LinkedListInline.deletePosition 3 emptied
    = Ok (false, with_line "Empty List" emptied) /\
  LinkedListInline.deletePosition 7 two_nodes
    = Ok (false, with_line "Index out of bounds" two_nodes).
Proof.
  assert (H0 : head emptied = None \/ (3 < 0 \/ length emptied <= 3)%Z)
    by (left; reflexivity).
  assert (H2 : head two_nodes = None \/ (7 < 0 \/ length two_nodes <= 7)%Z)
    by (right; right; simpl; lia).
  split; [exact H0|]. split; [exact H2|]. split.
  - exact (inline_deletePosition_refusals emptied 3 H0).
  - exact (inline_deletePosition_refusals two_nodes 7 H2).
Defined.

(** ** print_reverse *)

Section PrintReverseSpecs.

Import PrintReverse.
Implicit Types (s : state) (ns : list (loc * Z)).

Lemma pr_push_loop_lseg ns :
  forall s temp fuel st,
    lseg (cells s) temp ns None -> (List.length ns <= fuel)%nat ->
    push_loop fuel temp st s = Ok (reverse (ns.*2) ++ st, s).
Proof.
  induction ns as [|[l v] ns IH]; intros s temp fuel st Hseg Hf.
  - apply lseg_nil in Hseg. subst temp. by destruct fuel.
  - apply lseg_cons in Hseg as (-> & nx & Hl & Hseg).
    destruct fuel as [|f]; [simpl in Hf; lia|]. simpl in Hf.
    simpl. unfold_m. rewrite Hl. psimpl. rewrite Hl. psimpl.
    rewrite (IH s nx f) by (done || lia).
    by rewrite reverse_cons, <- app_assoc.
Qed.

(** once the first node holds the top value, the loop changes nothing *)
Lemma pr_top_loop_idle ns :
  forall s temp fuel l0 vn nx0 st,
    lseg (cells s) temp ns None -> (List.length ns <= fuel)%nat ->
    cells s !! l0 = Some (mkNode vn nx0) ->
    top_loop fuel temp (Some l0) (vn :: st) s = Ok (tt, s).
Proof.
  induction ns as [|[l v] ns IH]; intros s temp fuel l0 vn nx0 st Hseg Hf Hl0.
  - apply lseg_nil in Hseg. subst temp. by destruct fuel.
  - apply lseg_cons in Hseg as (-> & nx & Hl & Hseg).
    destruct fuel as [|f]; [simpl in Hf; lia|]. simpl in Hf.
    destruct s as [m b h t len con]. cbn [cells] in *.
    simpl. unfold top, set_value. unfold_m. rewrite Hl0. psimpl.
    rewrite (insert_id m l0 _ Hl0). rewrite Hl. psimpl.
    apply (IH (mkState m b h t len con) nx f l0 vn nx0 st); [done|lia|done].
Qed.

Lemma pr_print_reverse_repr s l0 v0 ns vn :
  repr s ((l0, v0) :: ns) -> last (v0 :: ns.*2) = Some vn ->
  exists s', print_reverse (head s) s = Ok (head s, s') /\
             repr s' ((l0, vn) :: ns) /\ console s' = console s.
Proof.
  intros H Hlast. pose proof (repr_NoDup _ _ H) as Hnd.
  destruct H as (Hseg & Ht & Hlen & Hb).
  destruct s as [m b h t len con]. cbn [cells brk head tail length] in *.
  pose proof (lseg_length _ _ _ Hseg) as Hsize. simpl in Hsize.
  pose proof Hseg as Hseg0.
  apply lseg_cons in Hseg as (-> & nx & Hl & Hseg).
  rewrite fmap_cons in Hnd. apply NoDup_cons in Hnd as [Hnin _].
  unfold print_reverse. unfold_m.
  rewrite (pr_push_loop_lseg _ (mkState m b (Some l0) t len con) (Some l0)
             (S (size m)) [] Hseg0) by (simpl; lia).
  rewrite app_nil_r. psimpl.
  assert (Hst : exists st', reverse (((l0, v0) :: ns).*2) = vn :: st').
  { rewrite fmap_cons. rewrite <- head_reverse in Hlast.
    destruct (reverse (v0 :: ns.*2)) as [|w st'] eqn:E; [done|].
    simpl in Hlast. injection Hlast as ->. exists st'. exact E. }
  destruct Hst as [st' ->].
  simpl. unfold top, set_value. unfold_m. rewrite Hl. psimpl.
  rewrite lookup_insert_eq. psimpl.
  rewrite (pr_top_loop_idle ns _ nx (size m) l0 vn nx st').
  - eexists. split; [reflexivity|]. split; [|done].
    unfold repr. psimpl. split_and!; try done.
    + apply lseg_cons. split; [done|]. exists nx.
      split; [apply lookup_insert_eq|]. by apply lseg_insert_ne.
    + apply (below_insert _ b); [done| |lia]. by apply Hb in Hl.
  - psimpl. by apply lseg_insert_ne.
  - lia.
  - psimpl. apply lookup_insert_eq.
Qed.

End PrintReverseSpecs.

(** print_reverse, called on the head of a well-formed list, prints nothing
    and reverses nothing: it returns the head it was given, and the only
    change is that the first node now holds the value of the last node; all
    other values, the nodes, head, tail and length are as before (an empty
    list is left untouched). *)
Theorem print_reverse_overwrites_first s :
  well_formed s = true ->
  exists s',
    PrintReverse.print_reverse (head s) s = Ok (head s, s') /\
    head s' = head s /\ tail s' = tail s /\ length s' = length s /\
    console s' = console s /\
    match values s with
    | Some (v0 :: rest) =>
        exists vn, last (v0 :: rest) = Some vn /\ values s' = Some (vn :: rest)
    | Some [] => s' = s
    | None => False
    end.
Proof.
  intros [ns H]%well_formed_repr. rewrite (repr_values _ _ H).
  destruct ns as [|[l0 v0] ns].
  - exists s. pose proof (proj2 (repr_empty_iff _ _ H) eq_refl) as Hh.
    split_and!; try done.
    rewrite Hh. unfold PrintReverse.print_reverse. unfold_m. done.
  - destruct (last (v0 :: ns.*2)) as [vn|] eqn:Hlast.
    2:{ by apply last_None in Hlast. }
    destruct (pr_print_reverse_repr s l0 v0 ns vn H Hlast) as (s' & Hr & H' & Hc).
    exists s'. split_and!; try done.
    + by rewrite (repr_head _ _ H'), (repr_head _ _ H).
    + destruct H as (_ & -> & _), H' as (_ & -> & _). done.
    + by rewrite (repr_length _ _ H'), (repr_length _ _ H).
    + simpl. exists vn. split; [done|]. by rewrite (repr_values _ _ H').
Qed.

Lemma print_reverse_overwrites_first_witness :
  well_formed two_nodes = true /\
  exists s',
    PrintReverse.print_reverse (head two_nodes) two_nodes = Ok (Some 0%nat, s') /\
    values s' = Some [10%Z; 10%Z] /\ console s' = [].
Proof.
  assert (W : well_formed two_nodes = true) by (vm_compute; reflexivity).
  split; [exact W|].
  destruct (print_reverse_overwrites_first two_nodes W)
    as (s' & Hr & _ & _ & _ & Hc & Hv).
  assert (Hvs : values two_nodes = Some [20%Z; 10%Z]) by (vm_compute; reflexivity).
  rewrite Hvs in Hv. destruct Hv as (vn & Hlast & Hv).
  assert (vn = 10%Z) by (vm_compute in Hlast; congruence). subst vn.
  exists s'. done.
Defined.

(** ** The array problems *)

Section ArraySpecs.

Import ArrayProblems.
Implicit Types (vec : list Z).

Lemma minmax_fold vec :
  forall mx0 mn0 mx mn,
    foldl (fun '(max_val, min_val) x =>
             (if (x >? max_val)%Z then x else max_val,
              if (x <? min_val)%Z then x else min_val))
          (mx0, mn0) vec = (mx, mn) ->
    (mx = mx0 \/ mx ∈ vec) /\ (mn = mn0 \/ mn ∈ vec) /\
    (mx0 <= mx)%Z /\ (mn <= mn0)%Z /\
    (forall x, x ∈ vec -> (mn <= x <= mx)%Z).
Proof.
  induction vec as [|y vec IH]; intros mx0 mn0 mx mn; simpl.
  - intros [= <- <-]. split_and!; try lia; auto.
    intros x Hx. inversion Hx.
  - intros H. apply IH in H as (Hmx & Hmn & Hle1 & Hle2 & Hall).
    split_and!.
    + destruct Hmx as [->|Hin]; [|right; by apply elem_of_cons; right].
      destruct (y >? mx0)%Z; [right; apply elem_of_cons; by left|by left].
    + destruct Hmn as [->|Hin]; [|right; by apply elem_of_cons; right].
      destruct (y <? mn0)%Z; [right; apply elem_of_cons; by left|by left].
    + destruct (y >? mx0)%Z eqn:E; [|done].
      rewrite Z.gtb_ltb in E. apply Z.ltb_lt in E. lia.
    + destruct (y <? mn0)%Z eqn:E; [|done]. apply Z.ltb_lt in E. lia.
    + intros x [->|Hx]%elem_of_cons; [|by apply Hall].
      destruct (y >? mx0)%Z eqn:E1; destruct (y <? mn0)%Z eqn:E2;
        rewrite ?Z.gtb_ltb in E1;
        rewrite ?Z.ltb_lt, ?Z.ltb_ge in E1, E2; lia.
Qed.

Lemma sorted_loop_spec count :
  forall vec i,
    (i + count + 1 = List.length vec)%nat ->
    exists b,
      sorted_loop count vec i = Some b /\
      (b = true <->
       forall j a c, (i <= j < i + count)%nat ->
         vec !! j = Some a -> vec !! S j = Some c -> (a <= c)%Z).
Proof.
  induction count as [|count IH]; intros vec i Hlen; simpl.
  - exists true. split; [done|]. split; [|done]. intros _ j a c Hj. lia.
  - destruct (lookup_lt_is_Some_2 vec i) as [a Ha]; [lia|].
    destruct (lookup_lt_is_Some_2 vec (S i)) as [c Hc]; [lia|].
    rewrite Ha, Hc. destruct (a >? c)%Z eqn:E.
    + exists false. split; [done|]. split; [done|].
      intros H. specialize (H i a c). rewrite Z.gtb_ltb in E.
      apply Z.ltb_lt in E. assert (a <= c)%Z by (apply H; [lia|done..]). lia.
    + rewrite Z.gtb_ltb in E. apply Z.ltb_ge in E.
      destruct (IH vec (S i)) as (b & Hb & Hiff); [lia|].
      exists b. split; [done|]. rewrite Hiff. split.
      * intros H j a' c' Hj Ha' Hc'.
        destruct (decide (j = i)) as [->|Hne].
        -- by simplify_eq.
        -- apply (H j); [lia|done..].
      * intros H j a' c' Hj. apply H. lia.
Qed.

Lemma adjacent_sorted vec :
  (forall j a c, vec !! j = Some a -> vec !! S j = Some c -> (a <= c)%Z) ->
  forall i j a c, (i <= j)%nat ->
    vec !! i = Some a -> vec !! j = Some c -> (a <= c)%Z.
Proof.
  intros Hadj i j a c Hij. revert c. induction Hij as [|j Hij IH]; intros c Ha Hc.
  - simplify_eq. lia.
  - destruct (lookup_lt_is_Some_2 vec j) as [d Hd].
    { apply lookup_lt_Some in Hc. lia. }
    specialize (IH d Ha Hd). specialize (Hadj j d c Hd Hc). lia.
Qed.

End ArraySpecs.

(** Problem 1: the manual loop reports "empty" exactly for the empty vector;
    otherwise its maximum and minimum are elements of the vector, and every
    element lies between them. *)
Theorem findMinMax_bounds (vec : list Z) :
  match ArrayProblems.findMinMax vec with
  | None => vec = []
  | Some (max_val, min_val) =>
      max_val ∈ vec /\ min_val ∈ vec /\
      forall x, x ∈ vec -> (min_val <= x <= max_val)%Z
  end.
Proof.
  unfold ArrayProblems.findMinMax. destruct vec as [|v0 vec]; [done|].
  destruct (foldl _ _ _) as [mx mn] eqn:E.
  apply minmax_fold in E as (Hmx & Hmn & _ & _ & Hall).
  split_and!; [| |done].
  - destruct Hmx as [->|]; [apply elem_of_cons; by left|done].
  - destruct Hmn as [->|]; [apply elem_of_cons; by left|done].
Qed.

(** Problem 3: the manual check never reads outside the vector, and it
    answers true exactly when the vector is in non-decreasing order (vectors
    of fewer than two elements included). *)
Theorem checkIfSorted_correct (vec : list Z) :
  exists b,
    ArrayProblems.checkIfSorted vec = Some b /\
    (b = true <->
     forall i j a c, (i <= j)%nat ->
       vec !! i = Some a -> vec !! j = Some c -> (a <= c)%Z).
Proof.
  unfold ArrayProblems.checkIfSorted.
  destruct (1 <? List.length vec)%nat eqn:E.
  - apply Nat.ltb_lt in E.
    destruct (sorted_loop_spec (List.length vec - 1) vec 0) as (b & Hb & Hiff);
      [lia|].
    exists b. split; [done|]. rewrite Hiff. split.
    + intros H. apply adjacent_sorted. intros j a c Ha Hc.
      apply (H j); [|done..]. apply lookup_lt_Some in Hc. lia.
    + intros H j a c _ Ha Hc. apply (H j (S j)); [lia|done..].
  - apply Nat.ltb_ge in E. exists true. split; [done|]. split; [|done].
    intros _ i j a c Hij Ha Hc.
    pose proof (lookup_lt_Some _ _ _ Ha). pose proof (lookup_lt_Some _ _ _ Hc).
    assert (i = j) by lia. simplify_eq. lia.
Qed.

Section ArrayReverse.

Import ArrayProblems.
Implicit Types (vec pre mid post : list Z).

Lemma at_index_middle vec pre post x i :
  vec = pre ++ x :: post -> i = Z.of_nat (List.length pre) ->
  at_index vec i = Some x.
Proof.
  intros -> ->. unfold at_index.
  destruct (Z.of_nat _ <? 0)%Z eqn:E; [apply Z.ltb_lt in E; lia|].
  rewrite Nat2Z.id. by apply list_lookup_middle.
Qed.

Lemma set_index_middle vec pre post x y i :
  vec = pre ++ x :: post -> i = Z.of_nat (List.length pre) ->
  set_index vec i y = Some (pre ++ y :: post).
Proof.
  intros -> ->. unfold set_index.
  destruct (Z.of_nat (List.length pre) <? 0)%Z eqn:E1;
    [apply Z.ltb_lt in E1; lia|].
  destruct (_ <=? _)%Z eqn:E2.
  { apply Z.leb_le in E2. rewrite length_app in E2. simpl in E2. lia. }
  cbn [orb]. rewrite Nat2Z.id. f_equal.
  rewrite insert_app_r_alt by lia. by rewrite Nat.sub_diag.
Qed.

Lemma swap_loop_spec fuel :
  forall pre mid post,
    (List.length mid <= fuel)%nat ->
    swap_loop fuel (pre ++ mid ++ post)
      (Z.of_nat (List.length pre))
      (Z.of_nat (List.length pre) + Z.of_nat (List.length mid) - 1)
    = Some (pre ++ reverse mid ++ post).
Proof.
  induction fuel as [|f IH]; intros pre mid post Hf.
  - destruct mid; [|simpl in Hf; lia]. simpl.
    destruct (_ <? _)%Z eqn:E; [apply Z.ltb_lt in E; lia|done].
  - destruct mid as [|a mid]; [|destruct mid as [|b mid _] using rev_ind].
    + simpl. destruct (_ <? _)%Z eqn:E; [apply Z.ltb_lt in E; simpl in E; lia|done].
    + simpl. destruct (_ <? _)%Z eqn:E; [apply Z.ltb_lt in E; simpl in E; lia|done].
    + rewrite length_cons, length_app in Hf |- *. simpl in Hf |- *.
      destruct (_ <? _)%Z eqn:E; [|apply Z.ltb_ge in E; lia]. clear E.
      rewrite (at_index_middle _ pre ((mid ++ [b]) ++ post) a); [|done|done].
      rewrite (at_index_middle _ (pre ++ a :: mid) post b).
      2:{ by rewrite <- !app_assoc. }
      2:{ rewrite length_app. simpl. lia. }
      rewrite (set_index_middle _ pre ((mid ++ [b]) ++ post) a b); [|done|done].
      rewrite (set_index_middle _ (pre ++ b :: mid) post b a).
      2:{ by rewrite <- !app_assoc. }
      2:{ rewrite length_app. simpl. lia. }
      specialize (IH (pre ++ [b]) mid (a :: post)).
      rewrite length_app in IH. simpl in IH.
      replace (Z.of_nat (List.length pre) + 1)%Z
        with (Z.of_nat (List.length pre + 1)) by lia.
      replace (Z.of_nat (List.length pre) +
               Z.of_nat (S (List.length mid + 1)) - 1 - 1)%Z
        with (Z.of_nat (List.length pre + 1)
              + Z.of_nat (List.length mid) - 1)%Z by lia.
      replace ((pre ++ b :: mid) ++ a :: post)
        with ((pre ++ [b]) ++ mid ++ a :: post) by by rewrite <- !app_assoc.
      rewrite IH by lia. f_equal.
      rewrite reverse_cons, reverse_snoc. by rewrite <- !app_assoc.
Qed.

End ArrayReverse.

(** Problem 2: the manual two-index reversal never reads or writes outside
    the vector and leaves the vector reversed, for every vector (the empty
    one included). *)
Theorem reverseManual_reverses (vec : list Z) :
  ArrayProblems.reverseManual vec = Some (reverse vec).
Proof.
  unfold ArrayProblems.reverseManual.
  pose proof (swap_loop_spec (List.length vec) [] vec []) as H.
  rewrite !app_nil_r in H. simpl in H. apply H. lia.
Qed.

Section ArrayDedup.

Import ArrayProblems.
Implicit Types (vec rest W J : list Z).

Lemma dedup_loop_spec rest :
  forall W J p,
    last W = Some p -> last (W ++ J) = Some p ->
    exists vec',
      dedup_loop (List.length rest) (W ++ J ++ rest)
        (List.length (W ++ J)) (List.length W)
      = Some (vec', List.length (W ++ collapse_runs p rest)) /\
      take (List.length (W ++ collapse_runs p rest)) vec'
      = W ++ collapse_runs p rest.
Proof.
  induction rest as [|x r IH]; intros W J p HW HWJ.
  - simpl. rewrite !app_nil_r. eexists. split; [done|].
    by rewrite take_app_length.
  - cbn [List.length dedup_loop collapse_runs].
    assert (Hx : (W ++ J ++ x :: r) !! List.length (W ++ J) = Some x).
    { rewrite app_assoc. by apply list_lookup_middle. }
    assert (Hp : (W ++ J ++ x :: r) !! (List.length (W ++ J) - 1)%nat = Some p).
    { rewrite app_assoc, lookup_app_l.
      - rewrite last_lookup in HWJ. by rewrite <- Nat.sub_1_r in HWJ.
      - destruct (W ++ J); [done|]. simpl. lia. }
    rewrite Hx, Hp. clear Hx Hp.
    destruct (bool_decide (x <> p)) eqn:E.
    + destruct J as [|j J].
      * rewrite (set_index_middle _ W r x x); [|done|done].
        specialize (IH (W ++ [x]) [] x).
        rewrite !app_nil_r in IH |- *. cbn [app] in IH |- *.
        rewrite last_snoc in IH. specialize (IH eq_refl eq_refl).
        rewrite <- !app_assoc in IH. cbn [app] in IH.
        rewrite length_app in IH. cbn [List.length] in IH.
        rewrite Nat.add_1_r in IH. exact IH.
      * rewrite (set_index_middle _ W (J ++ x :: r) j x); [|done|done].
        specialize (IH (W ++ [x]) (J ++ [x]) x).
        rewrite last_snoc in IH. rewrite app_assoc, last_snoc in IH.
        specialize (IH eq_refl eq_refl).
        rewrite <- !app_assoc in IH. cbn [app] in IH.
        rewrite (length_app W [x]) in IH. cbn [List.length] in IH.
        rewrite Nat.add_1_r in IH.
        replace (List.length (W ++ x :: J ++ [x]))
          with (S (List.length (W ++ j :: J))) in IH
          by (rewrite !length_app; simpl; rewrite length_app; simpl; lia).
        exact IH.
    + apply bool_decide_eq_false in E. apply dec_stable in E. subst p.
      specialize (IH W (J ++ [x]) x HW).
      rewrite app_assoc, last_snoc in IH. specialize (IH eq_refl).
      rewrite <- !app_assoc in IH. cbn [app] in IH.
      replace (List.length (W ++ J ++ [x]))
        with (S (List.length (W ++ J))) in IH
        by (rewrite !length_app; simpl; lia).
      exact IH.
Qed.

Lemma collapse_runs_elem p rest x :
  x ∈ p :: collapse_runs p rest <-> x ∈ p :: rest.
Proof.
  revert p. induction rest as [|y r IH]; intros p; [done|].
  cbn [collapse_runs]. destruct (bool_decide (y <> p)) eqn:E.
  - rewrite !(elem_of_cons _ x p). by rewrite IH.
  - apply bool_decide_eq_false in E. apply dec_stable in E. subst y.
    rewrite IH. rewrite !elem_of_cons. tauto.
Qed.

Lemma collapse_runs_sorted p rest :
  StronglySorted Z.le (p :: rest) ->
  StronglySorted Z.lt (p :: collapse_runs p rest).
Proof.
  revert p. induction rest as [|y r IH]; intros p Hs.
  - repeat constructor.
  - cbn [collapse_runs]. apply StronglySorted_inv in Hs as [Hs Hall].
    destruct (bool_decide (y <> p)) eqn:E.
    + apply bool_decide_eq_true in E.
      pose proof (Forall_inv Hall) as Hpy.
      constructor; [by apply IH|].
      apply Forall_forall. intros z Hz.
      apply (collapse_runs_elem y r z) in Hz.
      apply StronglySorted_inv in Hs as [_ Hy].
      apply elem_of_cons in Hz as [->|Hz]; [lia|].
      rewrite Forall_forall in Hy. specialize (Hy z Hz). lia.
    + apply bool_decide_eq_false in E. apply dec_stable in E. subst y.
      by apply IH.
Qed.

End ArrayDedup.

(** Problem 7: on every vector in non-decreasing order the loop stays inside
    the vector; the vector it leaves after the resize is in strictly
    increasing order, so no value occurs twice, it has exactly the values of
    the input, and the new length reported is its length. *)
Theorem removeDuplicatesSorted_unique (vec : list Z) :
  StronglySorted Z.le vec ->
  exists res,
    ArrayProblems.removeDuplicatesSorted vec = Some (res, List.length res) /\
    StronglySorted Z.lt res /\
    (forall x, x ∈ res <-> x ∈ vec).
Proof.
  intros Hs. destruct vec as [|v0 rest].
  { exists []. split_and!; [done|constructor|done]. }
  unfold ArrayProblems.removeDuplicatesSorted.
  destruct (dedup_loop_spec rest [v0] [] v0 eq_refl eq_refl)
    as (vec' & Hrun & Htake).
  simpl in Hrun, Htake. simpl. rewrite Nat.sub_0_r.
  rewrite Hrun. exists (v0 :: collapse_runs v0 rest).
  split_and!.
  - cbn [List.length]. by rewrite Htake.
  - by apply collapse_runs_sorted.
  - intros x. apply collapse_runs_elem.
Qed.

Lemma removeDuplicatesSorted_unique_witness :
  StronglySorted Z.le [1; 1; 2; 2; 3]%Z /\
  exists res,
    ArrayProblems.removeDuplicatesSorted [1; 1; 2; 2; 3]%Z
    = Some (res, List.length res) /\
    StronglySorted Z.lt res.
Proof.
  assert (Hs : StronglySorted Z.le [1; 1; 2; 2; 3]%Z).
  { repeat constructor; lia. }
  split; [exact Hs|].
  destruct (removeDuplicatesSorted_unique _ Hs) as (res & Hrun & Hlt & _).
  exists res. done.
Defined.

Section ArrayRotate.

Import ArrayProblems.
Implicit Types (vec rotated A B : list Z).

Lemma shift_injective (a b k n : Z) :
  (0 <= a < n)%Z -> (0 <= b < n)%Z -> (0 <= k)%Z ->
  ((a + k) mod n = (b + k) mod n)%Z -> a = b.
Proof.
  intros Ha Hb Hk H.
  pose proof (Z.div_mod (a + k) n ltac:(lia)) as H1.
  pose proof (Z.div_mod (b + k) n ltac:(lia)) as H2.
  rewrite H in H1.
  assert (Hd : (a - b = n * ((a + k) / n - (b + k) / n))%Z) by lia.
  assert (((a + k) / n - (b + k) / n = 0)%Z) by nia.
  lia.
Qed.

Lemma rotate_loop_spec vec (k : Z) count :
  forall rotated (i : nat),
    (0 <= k < Z.of_nat (List.length vec))%Z ->
    List.length rotated = List.length vec ->
    (i + count = List.length vec)%nat ->
    exists res,
      rotate_loop count vec rotated (Z.of_nat i) k
        (Z.of_nat (List.length vec)) = Some res /\
      List.length res = List.length vec /\
      (forall j, (i <= j < List.length vec)%nat ->
         res !! Z.to_nat ((Z.of_nat j + k) mod Z.of_nat (List.length vec))
         = vec !! j) /\
      (forall p,
         (forall j, (i <= j < List.length vec)%nat ->
            Z.to_nat ((Z.of_nat j + k) mod Z.of_nat (List.length vec)) <> p) ->
         res !! p = rotated !! p).
Proof.
  induction count as [|c IH]; intros rotated i Hk Hlen Hi.
  - exists rotated. split_and!; [done|done| |done]. intros j Hj. lia.
  - cbn [rotate_loop].
    destruct (lookup_lt_is_Some_2 vec i) as [x Hx]; [lia|].
    set (n := Z.of_nat (List.length vec)) in *.
    assert (Hq : (0 <= (Z.of_nat i + k) mod n < n)%Z)
      by (apply Z.mod_pos_bound; lia).
    unfold at_index. destruct (Z.of_nat i <? 0)%Z eqn:E;
      [apply Z.ltb_lt in E; lia|]. clear E.
    rewrite Nat2Z.id, Hx. unfold set_index.
    rewrite Z.rem_mod_nonneg by lia.
    destruct ((Z.of_nat i + k) mod n <? 0)%Z eqn:E1;
      [apply Z.ltb_lt in E1; lia|]. clear E1.
    destruct (Z.of_nat (List.length rotated) <=? (Z.of_nat i + k) mod n)%Z
      eqn:E2; [apply Z.leb_le in E2; lia|]. clear E2.
    cbn [orb].
    destruct (IH (<[Z.to_nat ((Z.of_nat i + k) mod n) := x]> rotated) (S i))
      as (res & Hrun & Hl & Hhit & Hframe);
      [lia|by rewrite length_insert|lia|].
    replace (Z.of_nat i + 1)%Z with (Z.of_nat (S i)) by lia.
    exists res. split_and!; [done|done| |].
    + intros j Hj. destruct (decide (j = i)) as [->|Hne].
      * rewrite Hframe.
        -- rewrite list_lookup_insert, decide_True; [by rewrite Hx|].
           split; [done|]. lia.
        -- intros j Hj' Heq. apply Z2Nat.inj in Heq;
             [|apply Z.mod_pos_bound; lia..].
           apply shift_injective in Heq; lia.
      * apply Hhit. lia.
    + intros p Hp. rewrite Hframe.
      * apply list_lookup_insert_ne. apply Hp. lia.
      * intros j Hj. apply Hp. lia.
Qed.

Lemma rotated_lookup vec (r j : nat) :
  (r < List.length vec)%nat -> (j < List.length vec)%nat ->
  (drop (List.length vec - r) vec ++ take (List.length vec - r) vec)
    !! Z.to_nat ((Z.of_nat j + Z.of_nat r) mod Z.of_nat (List.length vec))
  = vec !! j.
Proof.
  intros Hr Hj. destruct (decide (j < List.length vec - r)%nat) as [Hlt|Hge].
  - rewrite Z.mod_small by lia.
    rewrite lookup_app_r by (rewrite length_drop; lia).
    rewrite length_drop, lookup_take, decide_True by lia.
    f_equal. lia.
  - replace ((Z.of_nat j + Z.of_nat r) mod Z.of_nat (List.length vec))%Z
      with (Z.of_nat j + Z.of_nat r - Z.of_nat (List.length vec))%Z
      by (apply (Z.mod_unique_pos _ _ 1); lia).
    rewrite lookup_app_l by (rewrite length_drop; lia).
    rewrite lookup_drop. f_equal. lia.
Qed.

Lemma rotateTemp_spec vec (k : Z) :
  (0 <= k)%Z ->
  rotateTemp vec k =
  Some (let r := Z.to_nat (k mod Z.of_nat (List.length vec)) in
        drop (List.length vec - r) vec ++ take (List.length vec - r) vec).
Proof.
  intros Hk. unfold rotateTemp. cbv zeta.
  destruct (Z.of_nat (List.length vec) =? 0)%Z eqn:En.
  { apply Z.eqb_eq in En. destruct vec; [done|simpl in En; lia]. }
  apply Z.eqb_neq in En.
  destruct (k =? 0)%Z eqn:Ek.
  { apply Z.eqb_eq in Ek. subst k. cbn [orb]. rewrite Z.mod_0_l by done.
    change (Z.to_nat 0) with 0%nat. rewrite Nat.sub_0_r.
    by rewrite drop_all, take_ge. }
  cbn [orb]. rewrite Z.rem_mod_nonneg by lia.
  set (n := Z.of_nat (List.length vec)) in *.
  assert (Hr : (0 <= k mod n < n)%Z) by (apply Z.mod_pos_bound; lia).
  destruct (rotate_loop_spec vec (k mod n) (List.length vec)
              (replicate (List.length vec) 0%Z) 0)
    as (res & Hrun & Hl & Hhit & _);
    [done|by rewrite length_replicate|lia|].
  change (Z.of_nat 0) with 0%Z in Hrun. fold n in Hrun. rewrite Hrun.
  f_equal. apply list_eq. intros p.
  destruct (decide (p < List.length vec)%nat) as [Hp|Hp].
  - set (j := Z.to_nat ((Z.of_nat p - k mod n) mod n)).
    assert (Hj : (0 <= (Z.of_nat p - k mod n) mod n < n)%Z)
      by (apply Z.mod_pos_bound; lia).
    assert (Hpj : Z.to_nat ((Z.of_nat j + k mod n) mod n) = p).
    { unfold j. rewrite Z2Nat.id by lia. rewrite Zplus_mod_idemp_l.
      replace (Z.of_nat p - k mod n + k mod n)%Z with (Z.of_nat p) by lia.
      rewrite Z.mod_small by lia. lia. }
    rewrite <- Hpj at 1. rewrite Hhit by lia.
    pose proof (rotated_lookup vec (Z.to_nat (k mod n)) j) as H.
    rewrite Z2Nat.id in H by lia. fold n in H. rewrite Hpj in H.
    symmetry. apply H; lia.
  - rewrite !lookup_ge_None_2; [done| |lia].
    rewrite length_app, length_drop, length_take. lia.
Qed.

Lemma reverse_range_whole vec :
  reverse_range vec 0 (List.length vec) = reverse vec.
Proof.
  unfold reverse_range. rewrite Nat.sub_0_r, drop_0, drop_all.
  rewrite (take_ge vec (List.length vec)) by lia. by rewrite app_nil_r.
Qed.

Lemma three_reversals A B :
  reverse_range
    (reverse_range (reverse_range (A ++ B) 0 (List.length (A ++ B)))
       0 (List.length B))
    (List.length B) (List.length (A ++ B))
  = B ++ A.
Proof.
  rewrite reverse_range_whole, reverse_app.
  unfold reverse_range at 2. rewrite Nat.sub_0_r, drop_0, take_0, app_nil_l.
  rewrite (take_app_length' (reverse B)) by by rewrite length_reverse.
  rewrite (drop_app_length' (reverse B)) by by rewrite length_reverse.
  rewrite reverse_involutive. unfold reverse_range.
  rewrite (take_app_length' B), (drop_app_length' B) by done.
  rewrite (take_ge (reverse A)) by (rewrite length_reverse, length_app; lia).
  rewrite drop_ge by (rewrite !length_app, length_reverse; lia).
  by rewrite reverse_involutive, app_nil_r.
Qed.

Lemma rotateReverse_spec vec (k : Z) :
  (0 <= k)%Z ->
  rotateReverse vec k =
  Some (let r := Z.to_nat (k mod Z.of_nat (List.length vec)) in
        drop (List.length vec - r) vec ++ take (List.length vec - r) vec).
Proof.
  intros Hk. unfold rotateReverse. cbv zeta.
  destruct (Z.of_nat (List.length vec) =? 0)%Z eqn:En.
  { apply Z.eqb_eq in En. destruct vec; [done|simpl in En; lia]. }
  apply Z.eqb_neq in En.
  destruct (k =? 0)%Z eqn:Ek.
  { apply Z.eqb_eq in Ek. subst k. cbn [orb]. rewrite Z.mod_0_l by done.
    change (Z.to_nat 0) with 0%nat. rewrite Nat.sub_0_r.
    by rewrite drop_all, take_ge. }
  cbn [orb]. rewrite Z.rem_mod_nonneg by lia.
  set (n := Z.of_nat (List.length vec)) in *.
  assert (Hr : (0 <= k mod n < n)%Z) by (apply Z.mod_pos_bound; lia).
  destruct (k mod n <? 0)%Z eqn:E; [apply Z.ltb_lt in E; lia|]. clear E.
  f_equal. fold n. replace (Z.to_nat n) with (List.length vec) by lia.
  set (r := Z.to_nat (k mod n)).
  pose proof (three_reversals (take (List.length vec - r) vec)
                (drop (List.length vec - r) vec)) as H.
  rewrite take_drop in H.
  replace (List.length (drop (List.length vec - r) vec)) with r in H
    by (rewrite length_drop; lia).
  exact H.
Qed.

End ArrayRotate.

(** Problem 6: for every vector and every k >= 0 the temporary-vector loop
    and the three in-place reversals stay inside the vector and build the
    same vector; it has the length of the input, and the element at index i
    of the input is at index (i + k) mod n of it: a rotation to the right by
    k, also for k above the length. *)
Theorem rotate_methods_agree (vec : list Z) (k : Z) :
  (0 <= k)%Z ->
  exists res,
    ArrayProblems.rotateTemp vec k = Some res /\
    ArrayProblems.rotateReverse vec k = Some res /\
    List.length res = List.length vec /\
    (forall i x, vec !! i = Some x ->
       res !! Z.to_nat ((Z.of_nat i + k) mod Z.of_nat (List.length vec))
       = Some x).
Proof.
  intros Hk. eexists. split; [by apply rotateTemp_spec|].
  split; [by apply rotateReverse_spec|]. cbv zeta.
  split.
  - rewrite length_app, length_drop, length_take. lia.
  - intros i x Hx. pose proof (lookup_lt_Some _ _ _ Hx) as Hi.
    set (n := Z.of_nat (List.length vec)).
    assert (Hr : (0 <= k mod n < n)%Z) by (apply Z.mod_pos_bound; lia).
    pose proof (rotated_lookup vec (Z.to_nat (k mod n)) i) as H.
    rewrite Z2Nat.id in H by lia. fold n in H.
    rewrite Zplus_mod_idemp_r in H. rewrite H; [done|lia|done].
Qed.

Lemma rotate_methods_agree_witness :
  (0 <= 7)%Z /\
  ArrayProblems.rotateTemp [1; 2; 3; 4; 5]%Z 7 = Some [4; 5; 1; 2; 3]%Z /\
  ArrayProblems.rotateReverse [1; 2; 3; 4; 5]%Z 7 = Some [4; 5; 1; 2; 3]%Z.
Proof.
  assert (Hk : (0 <= 7)%Z) by lia.
  split; [exact Hk|].
  destruct (rotate_methods_agree [1; 2; 3; 4; 5]%Z 7 Hk)
    as (res & H1 & H2 & _).
  assert (res = [4; 5; 1; 2; 3]%Z) by (vm_compute in H1; congruence).
  subst res. done.
Defined.
